(** * singleflight: duplicate-call suppression

    A shallow embedding of package [singleflight] (group.go and the
    declarations of [call], [ResultContainer], [panicError], [errGoexit],
    [supplier] and [workNamespaces]) as an interleaving transition system
    over goroutines, followed by the properties of its join protocols.

    Every goroutine is a program point with its live local variables; the
    shared store holds the mutex [g.mu], the registry [g.workspaces], a heap
    of [call] records addressed by pointer, and the channels made by
    [DoChan].  One [step] of a goroutine executes the statements between
    two consecutive synchronisation points of the source. *)

From stdpp Require Import base option list gmap strings pretty.
From Stdlib Require Import ZArith Lia.
From Stdlib.Strings Require Import Byte.

Open Scope Z_scope.

(** ** Values, runtime types and errors *)

(** A handful of Go types a [Group] can be instantiated at.  [TAny] is
    [any] (the empty interface), the static type of what [recover()]
    returns. *)
Inductive gotype := TAny | TInt | TString | TBool.

#[global] Instance gotype_eq_dec : EqDecision gotype.
Proof. solve_decision. Defined.

(** Dynamically typed values, as an [any] holds them. *)
Inductive goval :=
| VNil
| VInt (n : Z)
| VStr (s : string)
| VBool (b : bool).

#[global] Instance goval_eq_dec : EqDecision goval.
Proof. solve_decision. Defined.

(** The zero value of a type: what the fields of [new(call[B])] hold. *)
Definition zero (T : gotype) : goval :=
  match T with
  | TAny => VNil
  | TInt => VInt 0
  | TString => VStr ""
  | TBool => VBool false
  end.

#[global] Instance byte_eq_dec : EqDecision byte := Byte.byte_eq_dec.

(** Values of interface type [error] that occur in the package:
    - [ErrNil]: the nil error;
    - [ErrNew msg]: an error a supplier or the runtime made;
    - [ErrGoexit]: the package variable [errGoexit], compared by identity;
    - [ErrPanic T v st]: a [*panicError[T]] with fields [value] and [stack];
      its dynamic type carries the type argument [T]. *)
Inductive error :=
| ErrNil
| ErrNew (msg : string)
| ErrGoexit
| ErrPanic (T : gotype) (value : goval) (stack : list byte).

#[global] Instance error_eq_dec : EqDecision error.
Proof. solve_decision. Defined.

(** *** [panicError]: construction and rendering *)

Definition nl : string := String (Ascii.ascii_of_byte x0a) EmptyString.

(** [fmt]'s [%v] verb on the values of the model. *)
Definition fmt_v (v : goval) : string :=
  match v with
  | VNil => "<nil>"
  | VInt n => pretty n
  | VStr s => s
  | VBool true => "true"
  | VBool false => "false"
  end.

(** [fmt]'s [%s] verb on a byte slice. *)
Definition fmt_s (bs : list byte) : string := String.string_of_list_byte bs.

(** [bytes.IndexByte]: index of the first occurrence, or -1. *)
Fixpoint IndexByte (bs : list byte) (b : byte) : Z :=
  match bs with
  | [] => -1
  | x :: r =>
      if decide (x = b) then 0
      else let i := IndexByte r b in if i <? 0 then -1 else i + 1
  end.

(** The slice expression [stack[i:]]. *)
Definition slice_from (bs : list byte) (i : Z) : list byte :=
  drop (Z.to_nat i) bs.

(** [newPanicError(r)] at its only call site, [newPanicError(r)] with
    [r := recover()]: the argument has static type [any], so the type
    parameter is inferred as [any] and the result is a [*panicError[any]].
    [stk] is what [debug.Stack()] returns there. *)
Definition newPanicError (r : goval) (stk : list byte) : error :=
  let line := IndexByte stk x0a in
  let stack := if 0 <=? line then slice_from stk (line + 1) else stk in
  ErrPanic TAny r stack.

(** Method [Error] of [panicError[B]]: [fmt.Sprintf("%v\n\n%s", p.value, p.stack)]. *)
Definition panicError_Error (value : goval) (stack : list byte) : string :=
  fmt_v value +:+ nl +:+ nl +:+ fmt_s stack.

(** [err.Error()] for the errors of the model. *)
Definition Error (e : error) : string :=
  match e with
  | ErrNil => ""
  | ErrNew msg => msg
  | ErrGoexit => "runtime.Goexit was called"
  | ErrPanic _ v st => panicError_Error v st
  end.

(** The type assertion [e, ok := err.( *panicError[B])]: it succeeds exactly
    on a [panicError] whose type argument is [B]. *)
Definition is_panicError (B : gotype) (e : error) : bool :=
  match e with
  | ErrPanic T _ _ => bool_decide (T = B)
  | _ => false
  end.

(** ** Suppliers, records, channels *)

(** What one run of a [supplier[B]] does: return a pair, panic, or call
    [runtime.Goexit].  For a panic, [r] is the value [recover()] returns
    in the deferred function of [doCall] (nil only for a [panic(nil)]
    before Go 1.21) and [stk] is what [debug.Stack()] returns there. *)
Inductive outcome :=
| Returns (v : goval) (e : error)
| Panics (r : goval) (stk : list byte)
| Goexits.

(** Goroutine identifiers, pointers to [call] records and channel
    identifiers are indices into the lists of the store. *)
Abbreviation tid := nat (only parsing).
Abbreviation loc := nat (only parsing).
Abbreviation chanid := nat (only parsing).

(** [ResultContainer[B]]. *)
Record ResultContainer := Result {
  value : goval;
  Err : error;
  Shared : bool
}.

#[global] Instance ResultContainer_eq_dec : EqDecision ResultContainer.
Proof. solve_decision. Defined.

(** A channel of [ResultContainer[B]].  No goroutine of the package
    receives; [buf] therefore holds every value ever sent, and a send
    blocks once [buf] is as long as [cap]. *)
Record chan := Chan {
  cap : nat;
  buf : list ResultContainer;
  closed : bool
}.

(** [call[B]].  [waitGroup] is the counter of the [sync.WaitGroup]; [dups]
    is a Go [int], kept as a [Z] wrapped to 64 bits. *)
Record call := Call {
  waitGroup : nat;
  val : goval;
  err : error;
  dups : Z;
  chans : list chanid
}.

Definition int_wrap (z : Z) : Z := (z + 2 ^ 63) mod 2 ^ 64 - 2 ^ 63.

Definition set_val_err (v : goval) (e : error) (c : call) : call :=
  Call (waitGroup c) v e (dups c) (chans c).
Definition set_err (e : error) (c : call) : call :=
  Call (waitGroup c) (val c) e (dups c) (chans c).
Definition incr_dups (c : call) : call :=
  Call (waitGroup c) (val c) (err c) (int_wrap (dups c + 1)) (chans c).
Definition append_chan (ch : chanid) (c : call) : call :=
  Call (waitGroup c) (val c) (err c) (dups c) (chans c ++ [ch]).
Definition wg_done (c : call) : call :=
  Call (Nat.pred (waitGroup c)) (val c) (err c) (dups c) (chans c).

(** The envelope the fan-out loop builds:
    [ResultContainer[B]{c.val, c.err, c.dups > 0}]. *)
Definition envelope (c : call) : ResultContainer :=
  Result (val c) (err c) (0 <? dups c).

(** ** Goroutines *)

(** Program points of [doCall] (group.go, lines 79-144), with the locals
    [normalReturn] and [recovered] where they are live. *)
Inductive dcpc :=
| DcCall                                    (* lines 121-143: [c.val, c.err = fn()] under the deferred [recover] *)
| DcDefer (normalReturn recovered : bool)   (* lines 91-93: entry of the outer deferred func *)
| DcLock (normalReturn recovered : bool)    (* line 95: [g.mu.Lock()] *)
| DcDone (normalReturn recovered : bool)    (* lines 97-113: [Done], the conditional [delete], the switch on [c.err] *)
| DcGoPanic (e : error)                     (* line 106: [go panic(e)] *)
| DcSelect                                  (* line 107: [select {}] *)
| DcPanic (e : error)                       (* line 109: [panic(e)] inside the deferred func *)
| DcSend (normalReturn recovered : bool) (rest : list chanid)  (* lines 115-117: the [range c.chans] loop *)
| DcUnlock (normalReturn recovered : bool). (* line 96: the deferred [g.mu.Unlock()], and the exit *)

(** Which [return] of [Do] a caller takes: the one of the caller that
    started the call, or the one of a duplicate. *)
Inductive role := Orig | Dup.

#[global] Instance role_eq_dec : EqDecision role.
Proof. solve_decision. Defined.

Section Group.

Context {K : Type} `{Countable K}.

(** The value type [B] the group is instantiated at. *)
Variable B : gotype.

(** A goroutine: the statement of group.go it is at (line numbers are
    those of group.go), with the locals that are live there.  The last
    three constructors of [Do] and the constructors [ChReturned],
    [GoEnded] and [FgReturned] are goroutines that have left the package. *)
Inductive thread :=
(* Do, lines 20-47 *)
| DoLock (key : K) (fn : outcome)                 (* at [g.mu.Lock()], line 24 *)
| DoLookup (key : K) (fn : outcome)               (* mutex held, lines 25-29 and 40-42 *)
| DoDupUnlock (c : loc)                           (* duplicate, at [g.mu.Unlock()], line 30 *)
| DoDupWait (c : loc)                             (* at [c.waitGroup.Wait()], line 31 *)
| DoDupCheck (c : loc)                            (* lines 33-38 *)
| DoNewUnlock (c : loc) (key : K) (fn : outcome)  (* first caller, at [g.mu.Unlock()], line 43 *)
| DoNewRet (c : loc)                              (* at [return c.val, c.err, c.dups > 0], line 46 *)
| DoReturned (r : role) (c : loc) (v : goval) (e : error) (shared : bool)
| DoPanicked (r : role) (c : loc) (e : error)     (* [panic(e)] has left [Do] *)
| DoGoexited (r : role) (c : loc)                 (* [runtime.Goexit] inside [Do] *)
(* DoChan, lines 53-76 *)
| ChMake (key : K) (fn : outcome)                 (* at [make(chan ..., 1)], line 57 *)
| ChLock (ch : chanid) (key : K) (fn : outcome)   (* at [g.mu.Lock()], line 58 *)
| ChLookup (ch : chanid) (key : K) (fn : outcome) (* mutex held, lines 59-64 and 68-70 *)
| ChDupUnlock (ch : chanid)                       (* duplicate, lines 65-66 *)
| ChNewUnlock (ch : chanid) (c : loc) (key : K) (fn : outcome)  (* line 71 *)
| ChSpawn (ch : chanid) (c : loc) (key : K) (fn : outcome)      (* lines 73-75 *)
| ChReturned (ch : chanid)
(* doCall, lines 79-144: inline in Do ([inline = true], line 45) or in the
   goroutine DoChan starts (line 73) *)
| InDoCall (inline : bool) (c : loc) (key : K) (fn : outcome) (p : dcpc)
| GoEnded (c : loc)
(* Forget, lines 149-153 *)
| FgLock (key : K)
| FgDelete (key : K)
| FgUnlock (key : K)
| FgReturned (key : K)
(* the goroutine of [go panic(e)], line 106 *)
| GoPanic (e : error).

(** The calls a client makes, one goroutine each. *)
Inductive request :=
| ReqDo (key : K) (fn : outcome)
| ReqDoChan (key : K) (fn : outcome)
| ReqForget (key : K).

Definition start (r : request) : thread :=
  match r with
  | ReqDo k fn => DoLock k fn
  | ReqDoChan k fn => ChMake k fn
  | ReqForget k => FgLock k
  end.

(** The whole system.  [mu] is [g.mu] with the goroutine that locked it,
    [workspaces] is [g.workspaces] ([None] is the nil map), [crashed] holds
    the value of a panic that reached the top of a goroutine. *)
Record state := State {
  mu : option tid;
  workspaces : option (gmap K loc);
  heap : list call;
  channels : list chan;
  threads : list thread;
  crashed : option error
}.

Definition init (rs : list request) : state :=
  State None None [] [] (start <$> rs) None.

Definition set_thread (t : tid) (th : thread) (s : state) : state :=
  State (mu s) (workspaces s) (heap s) (channels s) (<[t := th]> (threads s)) (crashed s).
Definition spawn (th : thread) (s : state) : state :=
  State (mu s) (workspaces s) (heap s) (channels s) (threads s ++ [th]) (crashed s).
Definition set_mu (m : option tid) (s : state) : state :=
  State m (workspaces s) (heap s) (channels s) (threads s) (crashed s).
Definition set_workspaces (w : option (gmap K loc)) (s : state) : state :=
  State (mu s) w (heap s) (channels s) (threads s) (crashed s).
Definition set_heap (h : list call) (s : state) : state :=
  State (mu s) (workspaces s) h (channels s) (threads s) (crashed s).
Definition set_channels (cs : list chan) (s : state) : state :=
  State (mu s) (workspaces s) (heap s) cs (threads s) (crashed s).
Definition set_crashed (e : error) (s : state) : state :=
  State (mu s) (workspaces s) (heap s) (channels s) (threads s) (Some e).

(** [g.workspaces[key]]: reading a nil map finds nothing. *)
Definition registry (s : state) : gmap K loc := default ∅ (workspaces s).
Arguments registry !_ /.

(** [g.mu.Lock()] by goroutine [t]: blocks ([None]) while the mutex is
    held. *)
Definition lock (t : tid) (s : state) : option state :=
  match mu s with
  | None => Some (set_mu (Some t) s)
  | Some _ => None
  end.

(** [g.mu.Unlock()]; unlocking an unlocked mutex is a fatal error. *)
Definition unlock (s : state) : state :=
  match mu s with
  | Some _ => set_mu None s
  | None => set_crashed (ErrNew "sync: unlock of unlocked mutex") s
  end.

(** The locked prologue of [Do] from the lazy [make] to the branch. *)
Definition do_lookup (t : tid) (key : K) (fn : outcome) (s : state) : option state :=
  let m := registry s in
  match m !! key with
  | Some c =>
      cr ← heap s !! c;
      Some (set_thread t (DoDupUnlock c)
             (set_heap (<[c := incr_dups cr]> (heap s))
               (set_workspaces (Some m) s)))
  | None =>
      let c := length (heap s) in
      Some (set_thread t (DoNewUnlock c key fn)
             (set_heap (heap s ++ [Call 1 (zero B) ErrNil 0 []])
               (set_workspaces (Some (<[key := c]> m)) s)))
  end.

(** The locked prologue of [DoChan]. *)
Definition dochan_lookup (t : tid) (ch : chanid) (key : K) (fn : outcome)
    (s : state) : option state :=
  let m := registry s in
  match m !! key with
  | Some c =>
      cr ← heap s !! c;
      Some (set_thread t (ChDupUnlock ch)
             (set_heap (<[c := append_chan ch (incr_dups cr)]> (heap s))
               (set_workspaces (Some m) s)))
  | None =>
      let c := length (heap s) in
      Some (set_thread t (ChNewUnlock ch c key fn)
             (set_heap (heap s ++ [Call 1 (zero B) ErrNil 0 [ch]])
               (set_workspaces (Some (<[key := c]> m)) s)))
  end.

(** [if g.workspaces[key] == c { delete(g.workspaces, key) }]. *)
Definition delete_if_same (key : K) (c : loc) (w : option (gmap K loc))
    : option (gmap K loc) :=
  match w with
  | Some m => if decide (m !! key = Some c) then Some (delete key m) else Some m
  | None => None
  end.

(** One step of [doCall(c, key, fn)] at program point [p], run by
    goroutine [t].  The result is the next state and either the next
    program point or, at the exit, the goroutine's next state. *)
Definition docall_step (t : tid) (inline : bool) (c : loc) (key : K) (fn : outcome)
    (p : dcpc) (s : state) : option state :=
  let goto p' s' := Some (set_thread t (InDoCall inline c key fn p') s') in
  match p with
  | DcCall =>
      cr ← heap s !! c;
      match fn with
      | Returns v e =>
          goto (DcDefer true false) (set_heap (<[c := set_val_err v e cr]> (heap s)) s)
      | Panics r stk =>
          (* the deferred [recover()] returns [r] and stops the panic;
             the inner func returns and [recovered = true] runs *)
          if decide (r = VNil) then goto (DcDefer false true) s
          else goto (DcDefer false true)
                 (set_heap (<[c := set_err (newPanicError r stk) cr]> (heap s)) s)
      | Goexits =>
          (* [recover()] returns nil; the goroutine keeps unwinding *)
          goto (DcDefer false false) s
      end
  | DcDefer nr rc =>
      cr ← heap s !! c;
      if negb nr && negb rc
      then goto (DcLock nr rc) (set_heap (<[c := set_err ErrGoexit cr]> (heap s)) s)
      else goto (DcLock nr rc) s
  | DcLock nr rc =>
      s' ← lock t s; goto (DcDone nr rc) s'
  | DcDone nr rc =>
      cr ← heap s !! c;
      match waitGroup cr with
      | O => goto (DcPanic (ErrNew "sync: negative WaitGroup counter")) s
      | S _ =>
          let s' := set_workspaces (delete_if_same key c (workspaces s))
                      (set_heap (<[c := wg_done cr]> (heap s)) s) in
          if is_panicError B (err cr) then
            match chans cr with
            | _ :: _ => goto (DcGoPanic (err cr)) s'
            | [] => goto (DcPanic (err cr)) s'
            end
          else if decide (err cr = ErrGoexit) then goto (DcUnlock nr rc) s'
          else goto (DcSend nr rc (chans cr)) s'
      end
  | DcGoPanic e => goto DcSelect (spawn (GoPanic e) s)
  | DcSelect => None
  | DcPanic e =>
      (* the deferred Unlock runs and the panic leaves doCall: into the
         caller of Do, or out of the goroutine, where it ends the process
         (whose mutex is then of no consequence) *)
      if inline then Some (set_thread t (DoPanicked Orig c e) (unlock s))
      else Some (set_crashed e s)
  | DcSend nr rc [] => goto (DcUnlock nr rc) s
  | DcSend nr rc (ch :: rest) =>
      cr ← heap s !! c;
      q ← channels s !! ch;
      if closed q then goto (DcPanic (ErrNew "send on closed channel")) s
      else if decide (length (buf q) < cap q)%nat
      then goto (DcSend nr rc rest)
             (set_channels (<[ch := Chan (cap q) (buf q ++ [envelope cr]) (closed q)]> (channels s)) s)
      else None
  | DcUnlock nr rc =>
      if nr || rc then
        Some (set_thread t (if inline then DoNewRet c else GoEnded c) (unlock s))
      else
        (* runtime.Goexit goes on and ends the goroutine *)
        Some (set_thread t (if inline then DoGoexited Orig c else GoEnded c) (unlock s))
  end.

(** One step of goroutine [t]; [None] when it is blocked, has ended, or
    the process has crashed. *)
Definition step (t : tid) (s : state) : option state :=
  match crashed s with
  | Some _ => None
  | None =>
      th ← threads s !! t;
      match th with
      (* Do *)
      | DoLock k fn => s' ← lock t s; Some (set_thread t (DoLookup k fn) s')
      | DoLookup k fn => do_lookup t k fn s
      | DoDupUnlock c => Some (set_thread t (DoDupWait c) (unlock s))
      | DoDupWait c =>
          cr ← heap s !! c;
          match waitGroup cr with
          | O => Some (set_thread t (DoDupCheck c) s)
          | S _ => None
          end
      | DoDupCheck c =>
          cr ← heap s !! c;
          if is_panicError B (err cr) then Some (set_thread t (DoPanicked Dup c (err cr)) s)
          else if decide (err cr = ErrGoexit) then Some (set_thread t (DoGoexited Dup c) s)
          else Some (set_thread t (DoReturned Dup c (val cr) (err cr) true) s)
      | DoNewUnlock c k fn => Some (set_thread t (InDoCall true c k fn DcCall) (unlock s))
      | DoNewRet c =>
          cr ← heap s !! c;
          Some (set_thread t (DoReturned Orig c (val cr) (err cr) (0 <? dups cr)) s)
      | DoReturned _ _ _ _ _ | DoPanicked _ _ _ | DoGoexited _ _ => None
      (* DoChan *)
      | ChMake k fn =>
          Some (set_thread t (ChLock (length (channels s)) k fn)
                 (set_channels (channels s ++ [Chan 1 [] false]) s))
      | ChLock ch k fn => s' ← lock t s; Some (set_thread t (ChLookup ch k fn) s')
      | ChLookup ch k fn => dochan_lookup t ch k fn s
      | ChDupUnlock ch => Some (set_thread t (ChReturned ch) (unlock s))
      | ChNewUnlock ch c k fn => Some (set_thread t (ChSpawn ch c k fn) (unlock s))
      | ChSpawn ch c k fn =>
          Some (set_thread t (ChReturned ch) (spawn (InDoCall false c k fn DcCall) s))
      | ChReturned _ => None
      (* doCall *)
      | InDoCall inline c k fn p => docall_step t inline c k fn p s
      | GoEnded _ => None
      (* Forget *)
      | FgLock k => s' ← lock t s; Some (set_thread t (FgDelete k) s')
      | FgDelete k =>
          Some (set_thread t (FgUnlock k) (set_workspaces (delete k <$> workspaces s) s))
      | FgUnlock k => Some (set_thread t (FgReturned k) (unlock s))
      | FgReturned _ => None
      (* go panic(e): nothing recovers it, the process dies *)
      | GoPanic e => Some (set_crashed e s)
      end
  end.

(** Running a schedule: the goroutines that step, in order. *)
Fixpoint run (sched : list tid) (s : state) : option state :=
  match sched with
  | [] => Some s
  | t :: sched' => s' ← step t s; run sched' s'
  end.

Inductive reachable (rs : list request) : state → Prop :=
| reachable_init : reachable rs (init rs)
| reachable_step s t s' :
    reachable rs s → step t s = Some s' → reachable rs s'.

(** *** Classification of program points *)

Definition in_critical (p : dcpc) : bool :=
  match p with
  | DcCall | DcDefer _ _ | DcLock _ _ => false
  | _ => true
  end.

(** The program points between a [Lock] and its [Unlock]. *)
Definition holds_lock (th : thread) : bool :=
  match th with
  | DoLookup _ _ | DoDupUnlock _ | DoNewUnlock _ _ _
  | ChLookup _ _ _ | ChDupUnlock _ | ChNewUnlock _ _ _ _
  | FgDelete _ | FgUnlock _ => true
  | InDoCall _ _ _ _ p => in_critical p
  | _ => false
  end.

(** The record a goroutine executes: it is about to run, runs or has run
    [doCall] on it. *)
Definition executor (th : thread) : option loc :=
  match th with
  | DoNewUnlock c _ _ | DoNewRet c
  | DoReturned Orig c _ _ _ | DoPanicked Orig c _ | DoGoexited Orig c
  | ChNewUnlock _ c _ _ | ChSpawn _ c _ _
  | InDoCall _ c _ _ _ | GoEnded c => Some c
  | _ => None
  end.

(** The record a caller of [Do] has joined, as the first caller or as a
    duplicate. *)
Definition joined (th : thread) : option loc :=
  match th with
  | DoDupUnlock c | DoDupWait c | DoDupCheck c
  | DoNewUnlock c _ _ | DoNewRet c | InDoCall true c _ _ _
  | DoReturned _ c _ _ _ | DoPanicked _ c _ | DoGoexited _ c => Some c
  | _ => None
  end.

(** The channel a caller of [DoChan] has made and not yet registered. *)
Definition pending (th : thread) : option chanid :=
  match th with
  | ChLock ch _ _ | ChLookup ch _ _ => Some ch
  | _ => None
  end.

(** *** Facts about one record *)

Definition ordinary (e : error) : Prop :=
  is_panicError B e = false ∧ e ≠ ErrGoexit.

Definition blank (cr : call) : Prop := val cr = zero B ∧ err cr = ErrNil.

(** What [doCall] has stored once the supplier is over. *)
Definition stored (fn : outcome) (cr : call) : Prop :=
  match fn with
  | Returns v e => val cr = v ∧ err cr = e
  | Panics r stk =>
      val cr = zero B ∧
      err cr = if decide (r = VNil) then ErrNil else newPanicError r stk
  | Goexits => val cr = zero B ∧ err cr = ErrGoexit
  end.

(** [normalReturn] and [recovered] when the outer deferred func starts. *)
Definition flags (fn : outcome) : bool * bool :=
  match fn with
  | Returns _ _ => (true, false)
  | Panics _ _ => (false, true)
  | Goexits => (false, false)
  end.

Definition chan_empty (s : state) (ch : chanid) : Prop :=
  ∃ q, channels s !! ch = Some q ∧ buf q = [].
Definition chan_full (s : state) (ch : chanid) (cr : call) : Prop :=
  ∃ q, channels s !! ch = Some q ∧ buf q = [envelope cr].

(** Before [waitGroup.Done]: the counter is one and the registry knows the
    record under its own key at most. *)
Definition early (s : state) (c : loc) (k : K) (P : call → Prop) : Prop :=
  ∃ cr, heap s !! c = Some cr ∧ waitGroup cr = 1%nat ∧ P cr ∧
        ∀ k', registry s !! k' = Some c → k' = k.

(** After [waitGroup.Done]. *)
Definition late (s : state) (c : loc) (P : call → Prop) : Prop :=
  ∃ cr, heap s !! c = Some cr ∧ waitGroup cr = 0%nat ∧ P cr.

(** The fan-out is over. *)
Definition delivered (s : state) (cr : call) : Prop :=
  is_panicError B (err cr) = false ∧
  (err cr ≠ ErrGoexit → ∀ ch, ch ∈ chans cr → chan_full s ch cr).

Definition dc_inv (s : state) (inline : bool) (c : loc) (k : K) (fn : outcome) (p : dcpc) : Prop :=
  match p with
  | DcCall => early s c k blank
  | DcDefer nr rc =>
      (nr, rc) = flags fn ∧
      early s c k (match fn with Goexits => blank | _ => stored fn end)
  | DcLock nr rc | DcDone nr rc => (nr, rc) = flags fn ∧ early s c k (stored fn)
  | DcGoPanic e | DcPanic e =>
      late s c (λ cr, stored fn cr ∧ e = err cr ∧ is_panicError B e = true)
  | DcSelect => late s c (λ cr, stored fn cr ∧ is_panicError B (err cr) = true)
  | DcSend nr rc rest =>
      (nr, rc) = flags fn ∧
      late s c (λ cr, stored fn cr ∧ ordinary (err cr) ∧
                  ∃ sent, chans cr = sent ++ rest ∧
                    (∀ ch, ch ∈ sent → chan_full s ch cr) ∧
                    (∀ ch, ch ∈ rest → chan_empty s ch))
  | DcUnlock nr rc =>
      (nr, rc) = flags fn ∧ late s c (λ cr, stored fn cr ∧ delivered s cr)
  end.

(** What holds of the shared store at each program point. *)
Definition tinv (s : state) (th : thread) : Prop :=
  match th with
  | DoLock _ _ | DoLookup _ _ | ChMake _ _
  | FgLock _ | FgDelete _ | FgUnlock _ | FgReturned _ | GoPanic _ => True
  | DoDupUnlock c | DoDupWait c => is_Some (heap s !! c)
  | DoDupCheck c => late s c (λ _, True)
  | DoNewUnlock c k _ => early s c k blank
  | DoNewRet c | GoEnded c => late s c (delivered s)
  | DoReturned Orig c v e sh =>
      late s c (λ cr, delivered s cr ∧ v = val cr ∧ e = err cr ∧ sh = (0 <? dups cr))
  | DoReturned Dup c v e sh =>
      late s c (λ cr, ordinary e ∧ v = val cr ∧ e = err cr ∧ sh = true)
  | DoPanicked _ c e => late s c (λ cr, e = err cr ∧ is_panicError B e = true)
  | DoGoexited _ c => late s c (λ cr, err cr = ErrGoexit)
  | ChLock ch _ _ | ChLookup ch _ _ =>
      (ch < length (channels s))%nat ∧
      ∀ c cr, heap s !! c = Some cr → ch ∉ chans cr
  | ChDupUnlock ch | ChReturned ch =>
      ∃ c cr, heap s !! c = Some cr ∧ ch ∈ chans cr
  | ChNewUnlock ch c k _ | ChSpawn ch c k _ =>
      early s c k (λ cr, blank cr ∧ ch ∈ chans cr)
  | InDoCall inline c k fn p => dc_inv s inline c k fn p
  end.

Fixpoint count_joined (c : loc) (ths : list thread) : nat :=
  match ths with
  | [] => 0
  | th :: r => (if decide (joined th = Some c) then 1 else 0) + count_joined c r
  end%nat.

(** The callers that have joined record [c]: those inside [Do] and one
    for each channel [DoChan] has registered. *)
Definition joiners (s : state) (c : loc) (cr : call) : Z :=
  Z.of_nat (count_joined c (threads s)) + Z.of_nat (length (chans cr)).

Record Inv (s : state) : Prop := {
  inv_lock : ∀ t th, threads s !! t = Some th → holds_lock th = true → mu s = Some t;
  inv_registry : ∀ k c, registry s !! k = Some c →
      ∃ cr, heap s !! c = Some cr ∧ waitGroup cr = 1%nat;
  inv_chan_valid : ∀ c cr ch, heap s !! c = Some cr → ch ∈ chans cr →
      (ch < length (channels s))%nat;
  inv_chan : ∀ ch q, channels s !! ch = Some q →
      cap q = 1%nat ∧ closed q = false ∧
      (buf q = [] ∨
       ∃ c cr, heap s !! c = Some cr ∧ ch ∈ chans cr ∧ waitGroup cr = 0%nat ∧
               ordinary (err cr) ∧ buf q = [envelope cr]);
  inv_nodup : ∀ c cr, heap s !! c = Some cr → NoDup (chans cr);
  inv_disjoint : ∀ c1 c2 cr1 cr2 ch,
      heap s !! c1 = Some cr1 → heap s !! c2 = Some cr2 →
      ch ∈ chans cr1 → ch ∈ chans cr2 → c1 = c2;
  inv_thread : ∀ t th, threads s !! t = Some th → tinv s th;
  inv_executor : ∀ t1 t2 th1 th2 c,
      threads s !! t1 = Some th1 → threads s !! t2 = Some th2 →
      executor th1 = Some c → executor th2 = Some c → t1 = t2;
  inv_pending : ∀ t1 t2 th1 th2 ch,
      threads s !! t1 = Some th1 → threads s !! t2 = Some th2 →
      pending th1 = Some ch → pending th2 = Some ch → t1 = t2;
  inv_dups : ∀ c cr, heap s !! c = Some cr →
      dups cr = int_wrap (joiners s c cr - 1);
  inv_orig : ∀ c cr, heap s !! c = Some cr →
      chans cr ≠ [] ∨
      ∃ t th, threads s !! t = Some th ∧ joined th = Some c ∧ executor th = Some c
}.


(** *** Results with [shared = false] *)

(** A caller of [Do] that has returned from record [c] with
    [shared = false]. *)
Definition unshared_return (c : loc) (th : thread) : bool :=
  match th with
  | DoReturned _ c' _ _ false => bool_decide (c' = c)
  | _ => false
  end.

(** A channel that holds an envelope with [Shared = false]. *)
Definition unshared_envelope (s : state) (ch : chanid) : bool :=
  match channels s !! ch with
  | Some q => existsb (λ r, negb (Shared r)) (buf q)
  | None => false
  end.

Fixpoint count_if {A} (f : A → bool) (l : list A) : nat :=
  match l with
  | [] => 0
  | x :: r => (if f x then 1 else 0) + count_if f r
  end%nat.

(** The results of the execution on record [c] that carry
    [shared = false], over the callers of [Do] and the channels of
    [DoChan]. *)
Definition unshared_results (s : state) (c : loc) (cr : call) : nat :=
  (count_if (unshared_return c) (threads s) +
   count_if (unshared_envelope s) (chans cr))%nat.

(** The goroutine has left the fan-out of the record it executes. *)
Definition past_fanout (th : thread) : bool :=
  match th with
  | InDoCall _ _ _ _ (DcUnlock _ _) | DoNewRet _ | GoEnded _
  | DoReturned Orig _ _ _ _ | DoGoexited Orig _ => true
  | _ => false
  end.

(** *** Goroutine lists *)

(** At most one goroutine has a given value of [f]. *)
Definition unique_by (f : thread → option nat) (l : list thread) : Prop :=
  ∀ t1 t2 th1 th2 c,
    l !! t1 = Some th1 → l !! t2 = Some th2 →
    f th1 = Some c → f th2 = Some c → t1 = t2.

Definition unused (f : thread → option nat) (l : list thread) (c : nat) : Prop :=
  ∀ t th, l !! t = Some th → f th ≠ Some c.

(** *** Goroutines at rest and in progress *)

(** The goroutine has left the package: its call has returned, panicked,
    or ended with its goroutine. *)
Definition final (th : thread) : bool :=
  match th with
  | DoReturned _ _ _ _ _ | DoPanicked _ _ _ | DoGoexited _ _
  | ChReturned _ | GoEnded _ | FgReturned _ => true
  | _ => false
  end.

(** The goroutine is at [select {}] (line 107), where it stays. *)
Definition parked (th : thread) : bool :=
  match th with
  | InDoCall _ _ _ _ DcSelect => true
  | _ => false
  end.

(** The goroutine executes a record and has not yet run
    [c.waitGroup.Done()] (line 97). *)
Definition before_done (th : thread) : bool :=
  match th with
  | DoNewUnlock _ _ _ | ChNewUnlock _ _ _ _ | ChSpawn _ _ _ _
  | InDoCall _ _ _ _ (DcCall | DcDefer _ _ | DcLock _ _ | DcDone _ _) => true
  | _ => false
  end.

(** The key of the call a goroutine is in. *)
Definition key_of (th : thread) : option K :=
  match th with
  | DoLock k _ | DoLookup k _ | DoNewUnlock _ k _
  | ChMake k _ | ChLock _ k _ | ChLookup _ k _
  | ChNewUnlock _ _ k _ | ChSpawn _ _ k _
  | InDoCall _ _ k _ _
  | FgLock k | FgDelete k | FgUnlock k => Some k
  | _ => None
  end.

(** A panic is on its way out of the package, or has left it. *)
Definition panicking (th : thread) : bool :=
  match th with
  | DoPanicked _ _ _ | GoPanic _
  | InDoCall _ _ _ _ (DcGoPanic _ | DcSelect | DcPanic _) => true
  | _ => false
  end.

(** The supplier a goroutine still carries. *)
Definition supplier_of (th : thread) : option outcome :=
  match th with
  | DoLock _ fn | DoLookup _ fn | DoNewUnlock _ _ fn
  | ChMake _ fn | ChLock _ _ fn | ChLookup _ _ fn
  | ChNewUnlock _ _ _ fn | ChSpawn _ _ _ fn
  | InDoCall _ _ _ fn _ => Some fn
  | _ => None
  end.

(** The failure [doCall] leaves in [c.err] for a supplier (lines 92, 132
    and 137). *)
Definition failure_of (fn : outcome) : error :=
  match fn with
  | Returns _ e => e
  | Panics r stk => if decide (r = VNil) then ErrNil else newPanicError r stk
  | Goexits => ErrGoexit
  end.

(** The value [doCall] leaves in [c.val]. *)
Definition value_of (fn : outcome) : goval :=
  match fn with
  | Returns v _ => v
  | _ => zero B
  end.

(** The supplier leaves no failure that the assertions to
    [*panicError[B]] of lines 33 and 102 accept. *)
Definition quiet (fn : outcome) : bool := negb (is_panicError B (failure_of fn)).

Definition quiet_request (r : request) : bool :=
  match r with
  | ReqDo _ fn | ReqDoChan _ fn => quiet fn
  | ReqForget _ => true
  end.

(** A panic value met in the store is the failure of a finished record. *)
Definition failure_stored (s : state) (e : error) : Prop :=
  is_panicError B e = true ∧
  ∃ c cr, heap s !! c = Some cr ∧ waitGroup cr = 0%nat ∧ err cr = e.

(** What holds of the goroutines beside [Inv]: who holds the mutex, who
    executes a record, and where a panic comes from. *)
Record Alive (s : state) : Prop := {
  alive_holder : ∀ t, mu s = Some t →
      ∃ th, threads s !! t = Some th ∧ holds_lock th = true;
  alive_executor : ∀ c cr, heap s !! c = Some cr →
      ∃ t th, threads s !! t = Some th ∧ executor th = Some c;
  alive_select : ∀ t th, threads s !! t = Some th → parked th = true →
      is_Some (crashed s) ∨ ∃ t' e, threads s !! t' = Some (GoPanic e);
  alive_gopanic : ∀ t e, threads s !! t = Some (GoPanic e) → failure_stored s e;
  alive_crashed : ∀ e, crashed s = Some e → failure_stored s e
}.

(** The goroutine [t] of state [s] is blocked for good reason: at
    [g.mu.Lock()] while the mutex is held, or at [Wait] while the
    counter is not zero. *)
Definition waiting (s : state) (th : thread) : bool :=
  match th with
  | DoLock _ _ | ChLock _ _ _ | FgLock _ | InDoCall _ _ _ _ (DcLock _ _) =>
      bool_decide (is_Some (mu s))
  | DoDupWait c =>
      match heap s !! c with
      | Some cr => bool_decide (waitGroup cr ≠ 0%nat)
      | None => false
      end
  | _ => false
  end.

(** *** A bound on the steps still to take *)

(** The steps a goroutine has before it, the sends of the fan-out apart
    from those to channels not yet registered; a call of [DoChan] counts
    the steps of the goroutine it may start and the send to its
    channel. *)
Definition weight (th : thread) : nat :=
  match th with
  | DoLock _ _ => 10
  | DoLookup _ _ => 9
  | DoNewUnlock _ _ _ => 8
  | DoDupUnlock _ => 3
  | DoDupWait _ => 2
  | DoDupCheck _ => 1
  | DoNewRet _ => 1
  | ChMake _ _ => 13
  | ChLock _ _ _ => 12
  | ChLookup _ _ _ => 11
  | ChNewUnlock _ _ _ _ => 9
  | ChSpawn _ _ _ _ => 8
  | ChDupUnlock _ => 1
  | InDoCall _ _ _ _ p =>
      match p with
      | DcCall => 7
      | DcDefer _ _ => 6
      | DcLock _ _ => 5
      | DcDone _ _ => 4
      | DcSend _ _ rest => 3 + length rest
      | DcUnlock _ _ => 2
      | DcGoPanic _ | DcPanic _ => 1
      | DcSelect => 0
      end
  | FgLock _ => 3
  | FgDelete _ => 2
  | FgUnlock _ => 1
  | _ => 0
  end.

Fixpoint total_weight (l : list thread) : nat :=
  match l with
  | [] => 0
  | th :: r => weight th + total_weight r
  end.

(** The sends a record still owes: one for each registered channel,
    until [Done]. *)
Definition owed (cr : call) : nat :=
  match waitGroup cr with
  | O => 0
  | S _ => length (chans cr)
  end.

Fixpoint total_owed (h : list call) : nat :=
  match h with
  | [] => 0
  | cr :: r => owed cr + total_owed r
  end.

Definition potential (s : state) : nat :=
  total_weight (threads s) + total_owed (heap s) +
  match crashed s with Some _ => 0 | None => 1 end.

End Group.

Arguments registry {_ _ _} !_ /.
Arguments inv_lock {_ _ _ _}.
Arguments inv_registry {_ _ _ _}.
Arguments inv_chan_valid {_ _ _ _}.
Arguments inv_chan {_ _ _ _}.
Arguments inv_nodup {_ _ _ _}.
Arguments inv_disjoint {_ _ _ _}.
Arguments inv_thread {_ _ _ _}.
Arguments inv_executor {_ _ _ _}.
Arguments inv_pending {_ _ _ _}.
Arguments inv_dups {_ _ _ _}.
Arguments inv_orig {_ _ _ _}.
Arguments alive_holder {_ _ _ _}.
Arguments alive_executor {_ _ _ _}.
Arguments alive_select {_ _ _ _}.
Arguments alive_gopanic {_ _ _ _}.
Arguments alive_crashed {_ _ _ _}.

(** ** Small client programs *)

(** Programs over the key 7 in groups of several value types, and the
    schedules that run them.  Goroutines 0, 1, ... are the calls of the
    program in order; a goroutine [DoChan] starts comes after them. *)
Module Programs.

Definition first_line : list byte :=
  String.list_byte_of_string "goroutine 18 [running]:".
Definition other_lines : list byte :=
  String.list_byte_of_string "runtime/debug.Stack()" ++ [x0a].

(** What [debug.Stack()] returns. *)
Definition stack_text : list byte := first_line ++ x0a :: other_lines.

Definition ret42 : outcome := Returns (VInt 42) ErrNil.
Definition ret43 : outcome := Returns (VInt 43) ErrNil.
Definition boom : outcome := Panics (VStr "boom") stack_text.

(** A [panic(nil)] for which [recover()] returns nil. *)
Definition nil_boom : outcome := Panics VNil stack_text.

(** The failure [doCall] stores for [boom]. *)
Definition stored_boom : error := ErrPanic TAny (VStr "boom") other_lines.

(** Two overlapping calls of [Do]. *)
Definition two_do (fn : outcome) : list (@request nat) :=
  [ReqDo 7%nat fn; ReqDo 7%nat fn].

(** A call of [Do], a [Forget] and a second call of [Do]. *)
Definition do_forget_do : list (@request nat) :=
  [ReqDo 7%nat ret42; ReqForget 7%nat; ReqDo 7%nat ret43].

Definition one_do (fn : outcome) : list (@request nat) := [ReqDo 7%nat fn].
Definition one_dochan (fn : outcome) : list (@request nat) := [ReqDoChan 7%nat fn].

(** [n] steps of goroutine [t]. *)
Definition steps (n : nat) (t : nat) : list nat := replicate n t.

(** The state a schedule leads to (the initial one if the schedule
    cannot run). *)
Definition after (B : gotype) (rs : list (@request nat)) (sched : list nat)
    : @state nat _ _ :=
  default (init rs) (run B sched (init rs)).

(** Goroutine 0 locks, finds no record, makes one, unlocks and enters
    [doCall]; goroutine 1 locks. *)
Definition second_at_lookup : list nat := steps 3 0 ++ steps 1 1.

(** Goroutine 1 goes on: it attaches as a duplicate, unlocks and waits. *)
Definition second_waits : list nat := second_at_lookup ++ steps 2 1.

(** Goroutine 0 runs the supplier, the deferred function up to the end of
    the loop, unlocks and returns from [Do] (7 steps when the supplier
    returns or panics in a group that is not of [any]); goroutine 1 wakes
    and inspects the failure. *)
Definition both_done : list nat := second_waits ++ steps 7 0 ++ steps 2 1.

(** In a group of [any], [doCall] of a supplier that panics ends after 5
    steps, at its [panic(e)]. *)
Definition both_panicked : list nat := second_waits ++ steps 5 0 ++ steps 2 1.

(** The supplier of goroutine 0 has called [runtime.Goexit]; [doCall] has
    passed [Done] and is at the deferred [Unlock]. *)
Definition goexit_at_unlock : list nat := second_waits ++ steps 4 0.


(** [Forget(7)] has returned and goroutine 2 holds the mutex, about to
    look key 7 up. *)
Definition forgotten_in_flight : list nat := steps 3 0 ++ steps 3 1 ++ steps 1 2.

(** Goroutine 2 makes its record, unlocks and runs its supplier; then
    goroutine 0 runs its own and returns, and goroutine 2 returns. *)
Definition both_executed : list nat :=
  forgotten_in_flight ++ steps 3 2 ++ steps 7 0 ++ steps 6 2.

(** [DoChan] makes its channel, locks, makes the record, unlocks, starts
    goroutine 1 and returns. *)
Definition dochan_returned : list nat := steps 5 0.

(** Goroutine 1 runs the supplier and the deferred function up to the
    first send. *)
Definition dochan_at_send : list nat := dochan_returned ++ steps 4 1.

(** Goroutine 1 sends, leaves the loop, unlocks and ends. *)
Definition dochan_done : list nat := dochan_at_send ++ steps 3 1.

(** With a supplier that calls [runtime.Goexit], and with one that panics
    in a group of [any], goroutine 1 sends nothing: it unlocks and ends
    after 5 steps, or starts goroutine 2 for [go panic(e)], which then
    takes its step. *)
Definition dochan_goexited : list nat := dochan_returned ++ steps 5 1.
Definition dochan_crashed : list nat := dochan_returned ++ steps 5 1 ++ steps 1 2.

(** The record of two overlapping calls of [Do] that returned 42. *)
Definition shared_record : call := Call 0 (VInt 42) ErrNil 1 [].

(** Two calls of [Do] with suppliers of their own. *)
Definition do_do : list (@request nat) := [ReqDo 7%nat ret42; ReqDo 7%nat ret43].

Definition one_forget : list (@request nat) := [ReqForget 7%nat].

(** Goroutine 0 has returned from [Do]; the duplicate still waits. *)
Definition first_done : list nat := second_waits ++ steps 7 0.

End Programs.

(** * Proofs *)

Section Proofs.

Context {K : Type} `{Countable K}.
Variable B : gotype.

Local Abbreviation thread := (@thread K).
Local Abbreviation request := (@request K).
Local Abbreviation state := (@state K _ _).

Implicit Types (s : state) (th : thread) (rs : list request).
Implicit Types (k key : K) (cr : call) (fn : outcome).
(** *** How a step changes the store *)

Lemma lock_Some t (s s' : state) :
  lock t s = Some s' → mu s = None ∧ s' = set_mu (Some t) s.
Proof. unfold lock. destruct (mu s); naive_solver. Qed.

Lemma unlock_held (s : state) t : mu s = Some t → unlock s = set_mu None s.
Proof. unfold unlock. by intros ->. Qed.

Lemma lookup_forget (w : option (gmap K loc)) k k' c :
  default ∅ (delete k <$> w) !! k' = Some c ↔ default ∅ w !! k' = Some c ∧ k' ≠ k.
Proof.
  destruct w as [m|]; simpl; [|by rewrite lookup_empty; naive_solver].
  rewrite lookup_delete_Some. naive_solver.
Qed.

Lemma lookup_delete_if_same (w : option (gmap K loc)) key c k' c' :
  default ∅ (delete_if_same key c w) !! k' = Some c' ↔
  default ∅ w !! k' = Some c' ∧ ¬ (k' = key ∧ c' = c).
Proof.
  destruct w as [m|]; simpl; [|by rewrite lookup_empty; naive_solver].
  case_decide; simpl; [rewrite lookup_delete_Some|]; naive_solver.
Qed.

(** Case analysis on an enabled step: one goal for each path through
    [step], with the next state in explicit form. *)
Ltac split_step Hstep :=
  unfold step in Hstep;
  destruct (crashed _) eqn:Hcrashed; [discriminate|];
  let th := fresh "th" in
  destruct (threads _ !! _) as [th|] eqn:Hth; [|discriminate];
  simpl in Hstep;
  destruct th as [| | | | | | | | | | | | | | | | | ? ? ? ? [] | | | | | | ];
  simpl in Hstep; try discriminate;
  unfold do_lookup, dochan_lookup in Hstep;
  repeat match type of Hstep with
  | context [lock ?t ?s] =>
      let E := fresh "Hlock" in
      destruct (lock t s) eqn:E; simpl in Hstep;
      [apply lock_Some in E as [Hmu ->]|discriminate]
  | context [heap ?s !! ?c] =>
      let E := fresh "Hcr" in let cr := fresh "cr" in
      destruct (heap s !! c) as [cr|] eqn:E; simpl in Hstep; [|discriminate]
  | context [channels ?s !! ?c] =>
      let E := fresh "Hq" in let q := fresh "q" in
      destruct (channels s !! c) as [q|] eqn:E; simpl in Hstep; [|discriminate]
  | context [registry ?s !! ?k] =>
      let E := fresh "Hreg" in
      destruct (registry s !! k) eqn:E; simpl in Hstep
  | context [match ?x with _ => _ end] =>
      let E := fresh "Hcase" in destruct x eqn:E; simpl in Hstep; try discriminate
  end;
  injection Hstep as <-.


Ltac refold :=
  repeat match goal with
  | |- context [default ∅ (workspaces ?s)] =>
      change (default ∅ (workspaces s)) with (registry s)
  | H : context [default ∅ (workspaces ?s)] |- _ =>
      change (default ∅ (workspaces s)) with (registry s) in H
  end.

Ltac held HI :=
  match goal with
  | Hth : threads ?s !! ?t = Some _ |- _ =>
      let Hm := fresh "Hheld" in
      assert (mu s = Some t) as Hm by (by eapply (inv_lock s HI); [exact Hth|]);
      rewrite ?(unlock_held s t Hm) in *
  end.

Ltac heap_lookup :=
  match goal with
  | Hc : heap ?s !! ?c = Some _ |- context [<[?l := _]> (heap ?s) !! ?c] =>
      destruct (decide (c = l)) as [->|];
      [rewrite list_lookup_insert_eq by (by eapply lookup_lt_Some)
      |rewrite list_lookup_insert_ne by done]
  | Hc : heap ?s !! ?c = Some _ |- context [(heap ?s ++ _) !! ?c] =>
      rewrite lookup_app_l by (by eapply lookup_lt_Some)
  end.

Ltac own_facts HI :=
  match goal with
  | Hth : threads ?s !! _ = Some _ |- _ =>
      let Ht := fresh "Ht" in
      pose proof (inv_thread s HI _ _ Hth) as Ht; simpl in Ht
  end;
  try match goal with
  | Hreg : registry ?s !! _ = Some _ |- _ =>
      let Hr := fresh "Hr" in
      pose proof (inv_registry s HI _ _ Hreg) as Hr
  end.

Ltac unpack :=
  unfold early, late in *;
  repeat match goal with
  | H : _ ∧ _ |- _ => destruct H
  | H : ∃ _, _ |- _ => destruct H
  end.

Lemma step_heap s t s' th c cr :
  Inv B s → step B t s = Some s' → threads s !! t = Some th →
  heap s !! c = Some cr →
  ∃ cr', heap s' !! c = Some cr' ∧
    (waitGroup cr = 0%nat → cr' = cr) ∧
    (waitGroup cr' = waitGroup cr ∨
     waitGroup cr' = 0%nat ∧ executor th = Some c ∧ holds_lock th = true ∧
     ∀ k, registry s' !! k ≠ Some c) ∧
    (executor th ≠ Some c → val cr' = val cr ∧ err cr' = err cr) ∧
    chans cr `prefix_of` chans cr' ∧
    (holds_lock th = false → chans cr' = chans cr ∧ dups cr' = dups cr).
Proof.
  intros HI Hstep Hth0 Hc. split_step Hstep; simplify_eq; try held HI; simpl;
    try (by exists cr; auto 10); try heap_lookup; try (by exists cr; auto 10).
  all: own_facts HI; eexists; (split; [done|]); simpl; simplify_eq.
  all: unpack; simplify_eq; repeat split; auto; try done; try (intros; congruence); try lia.
  1: by apply prefix_app_r.
  all: right; repeat split; [lia|]; intros k' Hk'; refold;
    apply lookup_delete_if_same in Hk' as [? ?]; naive_solver.
Qed.

Lemma step_heap_late s t s' c cr :
  Inv B s → step B t s = Some s' → heap s !! c = Some cr → waitGroup cr = 0%nat →
  heap s' !! c = Some cr.
Proof.
  intros HI Hstep Hc Hwg.
  destruct (threads s !! t) as [th|] eqn:Hth.
  - destruct (step_heap _ _ _ _ _ _ HI Hstep Hth Hc) as (cr' & ? & Heq & _).
    by rewrite <-(Heq Hwg).
  - unfold step in Hstep. rewrite Hth in Hstep. by destruct (crashed s).
Qed.

(** Records are never freed; a step appends a channel to at most one
    record, the one the registry has for the key of a [DoChan]; a record
    that appears was just made by a lookup that found no entry. *)
Lemma step_heap_new s t s' th c cr' :
  Inv B s → step B t s = Some s' → threads s !! t = Some th →
  heap s' !! c = Some cr' →
  (∃ cr, heap s !! c = Some cr ∧ chans cr' = chans cr) ∨
  (∃ cr ch k fn, heap s !! c = Some cr ∧ th = ChLookup ch k fn ∧
     registry s !! k = Some c ∧ chans cr' = chans cr ++ [ch]) ∨
  (c = length (heap s) ∧ waitGroup cr' = 1%nat ∧ blank B cr' ∧ dups cr' = 0 ∧
   ((∃ k fn, th = DoLookup k fn ∧ registry s !! k = None ∧ chans cr' = []) ∨
    (∃ ch k fn, th = ChLookup ch k fn ∧ registry s !! k = None ∧ chans cr' = [ch]))).
Proof.
  intros HI Hstep Hth0 Hc. split_step Hstep; simplify_eq; try held HI; simpl in *;
    try (by left; exists cr'; eauto).
  all: first
    [ apply list_lookup_insert_Some in Hc as [(-> & <- & ?)|[? Hc]]
    | apply lookup_snoc_Some in Hc as [[? Hc]|[-> <-]] ];
    try (by left; eauto); simpl.
  - right; right. repeat split; eauto 10.
  - right; left. eauto 10.
  - right; right. repeat split; eauto 10.
Qed.

(** Channels are never freed; a channel is written once, while empty, by
    a goroutine inside the critical section. *)
Lemma step_channels s t s' th ch q :
  Inv B s → step B t s = Some s' → threads s !! t = Some th →
  channels s !! ch = Some q →
  ∃ q', channels s' !! ch = Some q' ∧ cap q' = cap q ∧ closed q' = closed q ∧
    (q' = q ∨ buf q = [] ∧ holds_lock th = true ∧
       ∃ c cr, executor th = Some c ∧ heap s !! c = Some cr ∧
         waitGroup cr = 0%nat ∧ ordinary B (err cr) ∧ ch ∈ chans cr ∧
         buf q' = [envelope cr]).
Proof.
  intros HI Hstep Hth0 Hc. split_step Hstep; simplify_eq; try held HI; simpl;
    try (by exists q; auto).
  - exists q. rewrite lookup_app_l by (by eapply lookup_lt_Some). auto.
  - own_facts HI. destruct Ht as (_ & cr' & ? & ? & ? & ? & sent & Hsent & ? & Hrest).
    match goal with |- context [<[?c0 := _]> _ !! _] =>
      destruct (Hrest c0) as (q' & ? & Hq'); [by left|];
      destruct (decide (ch = c0)) as [->|]
    end; simplify_eq.
    + rewrite list_lookup_insert_eq by (by eapply lookup_lt_Some).
      eexists; split; [done|]. simpl. rewrite Hq'.
      do 2 (split; [done|]). right. do 2 (split; [done|]).
      exists c, cr. split_and!; try done.
      rewrite Hsent. apply elem_of_app; right; by left.
    + rewrite list_lookup_insert_ne by done. eauto 10.
Qed.

Lemma step_channels_new s t s' th ch q' :
  Inv B s → step B t s = Some s' → threads s !! t = Some th →
  channels s' !! ch = Some q' →
  is_Some (channels s !! ch) ∨
  (ch = length (channels s) ∧ q' = Chan 1 [] false).
Proof.
  intros HI Hstep Hth0 Hc. split_step Hstep; simplify_eq; try held HI; simpl in *;
    try (by left; eauto).
  - apply lookup_snoc_Some in Hc as [[? Hc]|[-> <-]]; eauto.
  - left. apply lookup_lt_is_Some. apply lookup_lt_Some in Hc.
    by rewrite length_insert in Hc.
Qed.

(** The registry gains an entry only for a record just made, and changes
    only inside the critical section. *)
Lemma step_registry s t s' th k c :
  Inv B s → step B t s = Some s' → threads s !! t = Some th →
  registry s' !! k = Some c →
  registry s !! k = Some c ∨
  heap s !! c = None ∧ ∃ cr', heap s' !! c = Some cr' ∧ waitGroup cr' = 1%nat.
Proof.
  intros HI Hstep Hth0 Hc. split_step Hstep; simplify_eq; try held HI; simpl in *;
    try (by left; eauto).
  all: first
    [ apply lookup_insert_Some in Hc as [[-> <-]|[? ?]];
      [right; split; [by apply lookup_ge_None|];
       rewrite lookup_app_r, Nat.sub_diag by done; simpl; eauto
      |by left]
    | apply lookup_forget in Hc as [? ?]; by left
    | apply lookup_delete_if_same in Hc as [? ?]; by left ].
Qed.

(** Outside the critical section nothing but [val] and [err] of the
    executed record, the list of channels and the goroutines change. *)
Lemma step_unlocked s t s' th :
  Inv B s → step B t s = Some s' → threads s !! t = Some th →
  holds_lock th = false →
  registry s' = registry s ∧
  (mu s' = mu s ∨ mu s = None ∧ mu s' = Some t) ∧
  ∀ ch q, channels s !! ch = Some q → channels s' !! ch = Some q.
Proof.
  intros HI Hstep Hth0 Hc. split_step Hstep; simplify_eq; try held HI; simpl in *;
    refold; try done; try (by auto).
  split; [done|]. split; [by left|]. intros ch q Hq.
  by rewrite lookup_app_l by (by eapply lookup_lt_Some).
Qed.

Lemma step_threads_length s t s' :
  step B t s = Some s' → (length (threads s) ≤ length (threads s'))%nat.
Proof.
  intros Hstep. split_step Hstep; unfold unlock; repeat case_match; simpl;
    rewrite ?length_insert, ?length_app, ?length_insert; simpl; lia.
Qed.

Lemma step_threads_other s t s' t2 th2 :
  step B t s = Some s' → t2 ≠ t → threads s !! t2 = Some th2 →
  threads s' !! t2 = Some th2.
Proof.
  intros Hstep Hne Hth2. split_step Hstep; unfold unlock; repeat case_match; simpl;
    rewrite ?list_lookup_insert_ne by done;
    rewrite ?lookup_app_l, ?list_lookup_insert_ne; 
    rewrite ?length_insert; try done; by eapply lookup_lt_Some.
Qed.

(** *** Goroutine lists *)

Lemma unique_by_insert f (l : list thread) t th th' :
  unique_by f l → l !! t = Some th →
  (∀ c, f th' = Some c → f th = Some c ∨ unused f l c) →
  unique_by f (<[t := th']> l).
Proof.
  intros Hu Hth Hnew t1 t2 th1 th2 c H1 H2 Hf1 Hf2.
  apply list_lookup_insert_Some in H1 as [(-> & <- & ?)|[? H1]];
  apply list_lookup_insert_Some in H2 as [(-> & <- & ?)|[? H2]]; try done.
  - destruct (Hnew _ Hf1) as [Hf|Hf]; [by eapply Hu|by destruct (Hf _ _ H2)].
  - destruct (Hnew _ Hf2) as [Hf|Hf]; [by eapply Hu|by destruct (Hf _ _ H1)].
  - by eapply Hu.
Qed.

Lemma unique_by_snoc f (l : list thread) new :
  unique_by f l → (∀ c, f new = Some c → unused f l c) →
  unique_by f (l ++ [new]).
Proof.
  intros Hu Hnew t1 t2 th1 th2 c H1 H2 Hf1 Hf2.
  apply lookup_snoc_Some in H1 as [[? H1]|[-> <-]];
  apply lookup_snoc_Some in H2 as [[? H2]|[-> <-]]; try done.
  - by eapply Hu.
  - by destruct (Hnew _ Hf2 _ _ H1).
  - by destruct (Hnew _ Hf1 _ _ H2).
Qed.

(** A goroutine hands its value of [f] over to the one it starts. *)
Lemma unique_by_handover f (l : list thread) t th th' new :
  unique_by f l → l !! t = Some th →
  f th' = None → f new = f th →
  unique_by f (<[t := th']> (l ++ [new])).
Proof.
  intros Hu Hth Hnone Hsame t1 t2 th1 th2 c H1 H2 Hf1 Hf2.
  assert (t < length l)%nat by (by eapply lookup_lt_Some).
  rewrite insert_app_l in H1, H2 by done.
  apply lookup_snoc_Some in H1 as [[? H1]|[-> <-]];
  apply lookup_snoc_Some in H2 as [[? H2]|[-> <-]]; try done;
  try apply list_lookup_insert_Some in H1 as [(-> & <- & ?)|[? H1]];
  try apply list_lookup_insert_Some in H2 as [(-> & <- & ?)|[? H2]];
  try congruence.
  - by eapply Hu.
  - rewrite Hsame in Hf2. exfalso. eauto.
  - rewrite Hsame in Hf1. exfalso. eauto.
Qed.

Lemma count_joined_app c (l1 l2 : list thread) :
  count_joined c (l1 ++ l2) = (count_joined c l1 + count_joined c l2)%nat.
Proof. induction l1 as [|th l1 IH]; simpl; [done|]. rewrite IH. lia. Qed.

Lemma count_joined_insert c (l : list thread) t th th' :
  l !! t = Some th →
  (count_joined c (<[t := th']> l) + (if decide (joined th = Some c) then 1 else 0) =
   count_joined c l + (if decide (joined th' = Some c) then 1 else 0))%nat.
Proof.
  revert t. induction l as [|x l IH]; intros [|t] Hth; simplify_eq/=; [lia|].
  specialize (IH _ Hth). lia.
Qed.

Lemma count_joined_unused c (l : list thread) : unused joined l c → count_joined c l = 0%nat.
Proof.
  induction l as [|x l IH]; intros Hun; simpl; [done|].
  rewrite IH by (intros t th ?; by apply (Hun (S t))).
  case_decide as Hx; [|done]. by destruct (Hun 0%nat x).
Qed.

Lemma count_joined_pos c (l : list thread) t th :
  l !! t = Some th → joined th = Some c → (1 ≤ count_joined c l)%nat.
Proof.
  revert t. induction l as [|x l IH]; intros [|t] Hth Hj; simplify_eq/=.
  - rewrite decide_True by done. lia.
  - specialize (IH _ Hth Hj). lia.
Qed.

Lemma count_joined_two c (l : list thread) t1 t2 th1 th2 :
  t1 ≠ t2 → l !! t1 = Some th1 → l !! t2 = Some th2 →
  joined th1 = Some c → joined th2 = Some c → (2 ≤ count_joined c l)%nat.
Proof.
  revert t1 t2. induction l as [|x l IH]; intros [|t1] [|t2] Hne H1 H2 Hj1 Hj2;
    simplify_eq/=.
  - rewrite decide_True by done. pose proof (count_joined_pos _ _ _ _ H2 Hj2). lia.
  - rewrite decide_True by done. pose proof (count_joined_pos _ _ _ _ H1 Hj1). lia.
  - assert (t1 ≠ t2) as Hne' by congruence. specialize (IH _ _ Hne' H1 H2 Hj1 Hj2). lia.
Qed.

Lemma count_joined_stepped c (l : list thread) t th th' :
  l !! t = Some th →
  Z.of_nat (count_joined c (<[t := th']> l)) =
  Z.of_nat (count_joined c l)
  + (if decide (joined th' = Some c) then 1 else 0)
  - (if decide (joined th = Some c) then 1 else 0).
Proof.
  intros Hth. pose proof (count_joined_insert c l t th th' Hth).
  repeat case_decide; lia.
Qed.

Lemma count_joined_snoc c (l : list thread) new :
  joined new = None → count_joined c (l ++ [new]) = count_joined c l.
Proof.
  intros Hnew. rewrite count_joined_app. simpl. rewrite Hnew.
  rewrite decide_False by done. lia.
Qed.

Lemma int_wrap_succ z : int_wrap (int_wrap z + 1) = int_wrap (z + 1).
Proof.
  unfold int_wrap.
  replace (((z + 2 ^ 63) mod 2 ^ 64 - 2 ^ 63 + 1 + 2 ^ 63))
    with ((z + 2 ^ 63) mod 2 ^ 64 + 1) by lia.
  replace (z + 1 + 2 ^ 63) with ((z + 2 ^ 63) + 1) by lia.
  by rewrite Zplus_mod_idemp_l.
Qed.

Lemma int_wrap_small z : - 2 ^ 63 ≤ z < 2 ^ 63 → int_wrap z = z.
Proof. intros Hz. unfold int_wrap. rewrite Z.mod_small; lia. Qed.

(** *** Every step preserves the invariant *)

Lemma lookup_stepped (l : list thread) t th th' new t2 th2 :
  l !! t = Some th →
  <[t := th']> (l ++ [new]) !! t2 = Some th2 →
  t2 = t ∧ th2 = th' ∨ t2 ≠ t ∧ l !! t2 = Some th2 ∨
  t2 ≠ t ∧ t2 = length l ∧ th2 = new.
Proof.
  intros Hth%lookup_lt_Some H2. rewrite insert_app_l in H2 by done.
  apply lookup_snoc_Some in H2 as [[? H2]|[-> <-]].
  - apply list_lookup_insert_Some in H2. naive_solver.
  - rewrite length_insert. right; right. repeat split; lia.
Qed.

(** Which goroutine a lookup in the next state finds: the one that
    stepped, an untouched one, or the one just started. *)
Ltac thread_cases H2 :=
  first
  [ eapply lookup_stepped in H2 as [[-> ->]|[[? H2]|(? & -> & ->)]]; [| | |eassumption]
  | apply list_lookup_insert_Some in H2 as [(-> & <- & ?)|[? H2]] ].

Lemma step_inv_lock s t s' :
  Inv B s → step B t s = Some s' →
  ∀ t2 th2, threads s' !! t2 = Some th2 → holds_lock th2 = true → mu s' = Some t2.
Proof.
  intros HI Hstep t2 th2 H2 Hl.
  split_step Hstep; try held HI; simpl in *; try thread_cases H2; try done.
  all: try (by eapply (inv_lock s HI)).
  all: try (pose proof (inv_lock s HI _ _ H2 Hl); congruence).
Qed.

Lemma step_inv_registry s t s' :
  Inv B s → step B t s = Some s' →
  ∀ k c, registry s' !! k = Some c →
    ∃ cr, heap s' !! c = Some cr ∧ waitGroup cr = 1%nat.
Proof.
  intros HI Hstep k c Hk.
  destruct (threads s !! t) as [th|] eqn:Hth;
    [|unfold step in Hstep; rewrite Hth in Hstep; by destruct (crashed s)].
  destruct (step_registry _ _ _ _ _ _ HI Hstep Hth Hk) as [Hold|[_ Hnew]]; [|done].
  destruct (inv_registry s HI _ _ Hold) as (cr & Hc & Hwg).
  destruct (step_heap _ _ _ _ _ _ HI Hstep Hth Hc) as (cr' & ? & _ & [?|(_&_&_&Hno)] & _).
  - exists cr'. split; [done|congruence].
  - by destruct (Hno k).
Qed.

Lemma step_thread_some s t s' :
  step B t s = Some s' → ∃ th, threads s !! t = Some th.
Proof.
  unfold step. destruct (crashed s); [done|].
  destruct (threads s !! t); [eauto|done].
Qed.

Lemma step_channels_lt s t s' ch :
  Inv B s → step B t s = Some s' →
  (ch < length (channels s))%nat → (ch < length (channels s'))%nat.
Proof.
  intros HI Hstep [q Hq]%lookup_lt_is_Some.
  destruct (step_thread_some _ _ _ Hstep) as [th Hth].
  destruct (step_channels _ _ _ _ _ _ HI Hstep Hth Hq) as (q' & Hq' & _).
  by eapply lookup_lt_Some.
Qed.

Lemma step_inv_chan_valid s t s' :
  Inv B s → step B t s = Some s' →
  ∀ c cr ch, heap s' !! c = Some cr → ch ∈ chans cr →
    (ch < length (channels s'))%nat.
Proof.
  intros HI Hstep c cr' ch Hc Hch.
  destruct (step_thread_some _ _ _ Hstep) as [th Hth].
  pose proof (inv_thread s HI _ _ Hth) as Ht.
  eapply step_channels_lt; [done..|].
  destruct (step_heap_new _ _ _ _ _ _ HI Hstep Hth Hc)
    as [(cr & ? & Heq)|[(cr & ch' & k & fn & ? & -> & ? & Heq)
       |(-> & _ & _ & _ & [(k & fn & -> & ? & Heq)|(ch' & k & fn & -> & ? & Heq)])]];
    rewrite Heq in Hch; simpl in Ht.
  - by eapply (inv_chan_valid s HI).
  - apply elem_of_app in Hch as [?|Hch%list_elem_of_singleton];
      [by eapply (inv_chan_valid s HI)|]. subst. by destruct Ht.
  - by apply elem_of_nil in Hch.
  - apply list_elem_of_singleton in Hch as ->. by destruct Ht.
Qed.

Lemma step_inv_nodup s t s' :
  Inv B s → step B t s = Some s' →
  ∀ c cr, heap s' !! c = Some cr → NoDup (chans cr).
Proof.
  intros HI Hstep c cr' Hc.
  destruct (step_thread_some _ _ _ Hstep) as [th Hth].
  pose proof (inv_thread s HI _ _ Hth) as Ht.
  destruct (step_heap_new _ _ _ _ _ _ HI Hstep Hth Hc)
    as [(cr & ? & Heq)|[(cr & ch' & k & fn & ? & -> & ? & Heq)
       |(-> & _ & _ & _ & [(k & fn & -> & ? & Heq)|(ch' & k & fn & -> & ? & Heq)])]];
    rewrite Heq; simpl in Ht.
  - by eapply (inv_nodup s HI).
  - apply NoDup_app. split; [by eapply (inv_nodup s HI)|].
    split; [|apply NoDup_singleton].
    intros x Hx Hx'%list_elem_of_singleton. subst. destruct Ht as [_ Ht]. by eapply Ht.
  - constructor.
  - apply NoDup_singleton.
Qed.

Lemma step_inv_disjoint s t s' :
  Inv B s → step B t s = Some s' →
  ∀ c1 c2 cr1 cr2 ch,
    heap s' !! c1 = Some cr1 → heap s' !! c2 = Some cr2 →
    ch ∈ chans cr1 → ch ∈ chans cr2 → c1 = c2.
Proof.
  intros HI Hstep c1 c2 cr1' cr2' ch Hc1 Hc2 Hch1 Hch2.
  destruct (step_thread_some _ _ _ Hstep) as [th Hth].
  pose proof (inv_thread s HI _ _ Hth) as Ht.
  destruct (step_heap_new _ _ _ _ _ _ HI Hstep Hth Hc1)
    as [(cr1 & ? & Heq1)|[(cr1 & ch1 & k1 & fn1 & ? & -> & ? & Heq1)
       |(-> & _ & _ & _ & [(k1 & fn1 & -> & ? & Heq1)|(ch1 & k1 & fn1 & -> & ? & Heq1)])]];
  destruct (step_heap_new _ _ _ _ _ _ HI Hstep Hth Hc2)
    as [(cr2 & ? & Heq2)|[(cr2 & ch2 & k2 & fn2 & ? & ? & ? & Heq2)
       |(-> & _ & _ & _ & [(k2 & fn2 & ? & ? & Heq2)|(ch2 & k2 & fn2 & ? & ? & Heq2)])]];
    rewrite Heq1 in Hch1; rewrite Heq2 in Hch2; simplify_eq; simpl in Ht;
    repeat match goal with
    | H : _ ∈ _ ++ _ |- _ => apply elem_of_app in H as [H|H]
    | H : _ ∈ [_] |- _ => apply list_elem_of_singleton in H; subst
    | H : _ ∈ [] |- _ => by apply elem_of_nil in H
    end;
    try done; try congruence; try (by eapply (inv_disjoint s HI));
    destruct Ht as [_ Ht]; exfalso; unfold not in Ht; eauto.
Qed.

Lemma step_inv_chan s t s' :
  Inv B s → step B t s = Some s' →
  ∀ ch q, channels s' !! ch = Some q →
    cap q = 1%nat ∧ closed q = false ∧
    (buf q = [] ∨
     ∃ c cr, heap s' !! c = Some cr ∧ ch ∈ chans cr ∧ waitGroup cr = 0%nat ∧
             ordinary B (err cr) ∧ buf q = [envelope cr]).
Proof.
  intros HI Hstep ch q' Hq'.
  destruct (step_thread_some _ _ _ Hstep) as [th Hth].
  destruct (step_channels_new _ _ _ _ _ _ HI Hstep Hth Hq') as [[q Hq]|[_ ->]];
    [|by auto].
  destruct (step_channels _ _ _ _ _ _ HI Hstep Hth Hq)
    as (q'' & ? & Hcap & Hcl & Hbuf); simplify_eq.
  destruct (inv_chan s HI _ _ Hq) as (? & ? & Hold).
  do 2 (split; [congruence|]).
  destruct Hbuf as [->|(_ & _ & c & cr & _ & Hc & Hwg & ? & ? & ?)].
  - destruct Hold as [?|(c & cr & Hc & ? & Hwg & ? & ?)]; [by left|].
    right. exists c, cr. split; [|done]. by eapply step_heap_late.
  - right. exists c, cr. split; [|done]. by eapply step_heap_late.
Qed.

Lemma dc_inv_valid s inline c k fn p :
  dc_inv B s inline c k fn p → is_Some (heap s !! c).
Proof. destruct p; simpl; intros; unpack; eauto. Qed.

Lemma executor_valid s th c :
  tinv B s th → executor th = Some c → is_Some (heap s !! c).
Proof.
  destruct th as [| | | | | | |[]| []|[] | | | | | | | | | | | | | | ];
    simpl; intros Ht ?; simplify_eq; try (by eapply dc_inv_valid); unpack; eauto.
Qed.

Lemma joined_valid s th c :
  tinv B s th → joined th = Some c → is_Some (heap s !! c).
Proof.
  destruct th as [| | | | | | |[]| []|[] | | | | | | | |[]| | | | | | ];
    simpl; intros Ht ?; simplify_eq; try (by eapply dc_inv_valid); unpack; eauto.
Qed.

Lemma executor_unused s :
  Inv B s → unused executor (threads s) (length (heap s)).
Proof.
  intros HI t th Hth Hex.
  destruct (executor_valid s th _ (inv_thread s HI _ _ Hth) Hex)
    as [cr Hcr%lookup_lt_Some]. lia.
Qed.

Lemma joined_unused s :
  Inv B s → unused joined (threads s) (length (heap s)).
Proof.
  intros HI t th Hth Hex.
  destruct (joined_valid s th _ (inv_thread s HI _ _ Hth) Hex)
    as [cr Hcr%lookup_lt_Some]. lia.
Qed.

Lemma pending_unused s :
  Inv B s → unused pending (threads s) (length (channels s)).
Proof.
  intros HI t th Hth Hex. pose proof (inv_thread s HI _ _ Hth) as Ht.
  destruct th; simplify_eq/=; lia.
Qed.

Lemma unused_snoc f (l : list thread) new c :
  unused f l c → f new ≠ Some c → unused f (l ++ [new]) c.
Proof.
  intros Hun Hnew t th [[_ Hth]|[_ <-]]%lookup_snoc_Some; [by eapply Hun|done].
Qed.

(** The goroutine list after a step, for the uniqueness fields. *)
Ltac unique_step HI Hu Hth :=
  lazymatch goal with
  | |- unique_by ?f (<[?t := ?th']> (threads ?s ++ [?new])) =>
      first
      [ eapply unique_by_handover; [exact Hu|exact Hth|reflexivity|reflexivity]
      | eapply unique_by_insert;
        [apply unique_by_snoc; [exact Hu|by intros ??]
        |by apply lookup_app_l_Some
        |intros ? ?; left; done] ]
  | |- unique_by ?f (<[?t := ?th']> (threads ?s)) =>
      eapply unique_by_insert; [exact Hu|exact Hth|];
      first
      [ by intros ??; left
      | by intros ??
      | intros ? [= <-]; right;
        first [by apply executor_unused|by apply pending_unused] ]
  | |- unique_by ?f (threads ?s) => exact Hu
  end.

Lemma step_inv_executor s t s' :
  Inv B s → step B t s = Some s' → unique_by executor (threads s').
Proof.
  intros HI Hstep. pose proof (inv_executor s HI) as Hu.
  split_step Hstep; try held HI; simpl in *; unique_step HI Hu Hth.
Qed.

Lemma step_inv_pending s t s' :
  Inv B s → step B t s = Some s' → unique_by pending (threads s').
Proof.
  intros HI Hstep. pose proof (inv_pending s HI) as Hu.
  split_step Hstep; try held HI; simpl in *; unique_step HI Hu Hth.
Qed.

(** How the callers of a record and its counter change together. *)
Lemma step_joiners s t s' c cr' :
  Inv B s → step B t s = Some s' → heap s' !! c = Some cr' →
  (∃ cr, heap s !! c = Some cr ∧ dups cr' = dups cr ∧
         joiners s' c cr' = joiners s c cr) ∨
  (∃ cr, heap s !! c = Some cr ∧ waitGroup cr = 1%nat ∧
         dups cr' = int_wrap (dups cr + 1) ∧
         joiners s' c cr' = joiners s c cr + 1) ∨
  (heap s !! c = None ∧ dups cr' = 0 ∧ joiners s' c cr' = 1).
Proof.
  intros HI Hstep Hc. unfold joiners.
  split_step Hstep; try held HI; simpl in *;
    rewrite ?(count_joined_stepped _ _ _ _ _ Hth);
    rewrite ?(count_joined_stepped c (threads s ++ _) t _ _ (lookup_app_l_Some _ _ _ _ Hth));
    rewrite ?count_joined_snoc by done; simpl;
    try (left; exists cr'; split; [done|]; split; [done|]; repeat case_decide; simplify_eq; lia).
  all: try destruct inline; simpl.
  all: first
    [ apply list_lookup_insert_Some in Hc as [(-> & <- & ?)|[? Hc]]
    | apply lookup_snoc_Some in Hc as [[? Hc]|[-> <-]] ]; simpl.
  all: try (left; eexists; split; [done|]; split; [done|];
            repeat case_decide; simplify_eq; lia).
  all: try (right; left; eexists; split; [done|];
            destruct (inv_registry s HI _ _ Hreg) as (? & ? & ?); simplify_eq;
            split; [done|]; split; [done|];
            rewrite ?length_app; simpl; repeat case_decide; simplify_eq; lia).
  all: right; right; split; [by apply lookup_ge_None|]; split; [done|];
    rewrite (count_joined_unused _ _ (joined_unused s HI));
    repeat case_decide; simplify_eq; simpl; lia.
Qed.

Lemma step_inv_dups s t s' :
  Inv B s → step B t s = Some s' →
  ∀ c cr, heap s' !! c = Some cr → dups cr = int_wrap (joiners s' c cr - 1).
Proof.
  intros HI Hstep c cr' Hc.
  destruct (step_joiners _ _ _ _ _ HI Hstep Hc)
    as [(cr & Hcr & -> & ->)|[(cr & Hcr & _ & -> & ->)|(_ & -> & ->)]].
  - by apply (inv_dups s HI).
  - rewrite (inv_dups s HI _ _ Hcr), int_wrap_succ. f_equal. lia.
  - done.
Qed.

Lemma lookup_stepped_eq (l : list thread) t th th' sp :
  l !! t = Some th → <[t := th']> (l ++ sp) !! t = Some th'.
Proof.
  intros Hth%lookup_lt_Some. apply list_lookup_insert_eq.
  rewrite length_app. lia.
Qed.

Lemma lookup_inserted_eq (l : list thread) t th th' :
  l !! t = Some th → <[t := th']> l !! t = Some th'.
Proof. intros Hth%lookup_lt_Some. by apply list_lookup_insert_eq. Qed.

(** The caller that started a call stays the one who joined and executes
    it. *)
Lemma step_orig_kept s t s' th c :
  Inv B s → step B t s = Some s' → threads s !! t = Some th →
  joined th = Some c → executor th = Some c →
  ∃ th', threads s' !! t = Some th' ∧ joined th' = Some c ∧ executor th' = Some c.
Proof.
  intros HI Hstep Hth0 Hj He.
  split_step Hstep; try held HI; simplify_eq/=;
    try (by eauto);
    (eexists; split;
      [first [by eapply lookup_inserted_eq|by eapply lookup_stepped_eq]|done]).
Qed.

Lemma step_inv_orig s t s' :
  Inv B s → step B t s = Some s' →
  ∀ c cr, heap s' !! c = Some cr →
    chans cr ≠ [] ∨
    ∃ t2 th2, threads s' !! t2 = Some th2 ∧
      joined th2 = Some c ∧ executor th2 = Some c.
Proof.
  intros HI Hstep c cr' Hc.
  destruct (step_thread_some _ _ _ Hstep) as [th Hth].
  assert (∀ cr, heap s !! c = Some cr → chans cr `prefix_of` chans cr' →
    chans cr' ≠ [] ∨ ∃ t2 th2, threads s' !! t2 = Some th2 ∧
      joined th2 = Some c ∧ executor th2 = Some c) as Hold.
  { intros cr Hcr [k Hk].
    destruct (inv_orig s HI _ _ Hcr) as [?|(t2 & th2 & H2 & Hj & He)].
    - left. rewrite Hk. by destruct (chans cr).
    - right. destruct (decide (t2 = t)) as [->|Hne].
      + simplify_eq. destruct (step_orig_kept _ _ _ _ _ HI Hstep Hth Hj He)
          as (th' & ? & ? & ?). eauto.
      + exists t2, th2. split; [|done]. by eapply step_threads_other. }
  destruct (step_heap_new _ _ _ _ _ _ HI Hstep Hth Hc)
    as [(cr & ? & Heq)|[(cr & ch' & k & fn & ? & -> & ? & Heq)
       |(-> & _ & _ & _ & [(k & fn & -> & Hreg & Heq)|(ch' & k & fn & -> & ? & Heq)])]].
  - eapply Hold; [done|]. by rewrite Heq.
  - eapply Hold; [done|]. rewrite Heq. by apply prefix_app_r.
  - right. exists t, (DoNewUnlock (length (heap s)) k fn). split; [|done].
    unfold step in Hstep. rewrite Hth in Hstep. simpl in Hstep.
    destruct (crashed s); [done|]. unfold do_lookup in Hstep.
    rewrite Hreg in Hstep. injection Hstep as <-. simpl.
    by eapply lookup_inserted_eq.
  - left. by rewrite Heq.
Qed.

(** *** What a step of one goroutine leaves true for another *)

Section Frame.

Variables (s s' : state) (t : nat) (th : thread).
Hypothesis HI : Inv B s.
Hypothesis Hstep : step B t s = Some s'.
Hypothesis Hth : threads s !! t = Some th.

Lemma chan_full_frame ch cr : chan_full s ch cr → chan_full s' ch cr.
Proof.
  intros (q & Hq & Hbuf).
  destruct (step_channels _ _ _ _ _ _ HI Hstep Hth Hq)
    as (q' & ? & _ & _ & [->|[Hnil _]]).
  - by exists q.
  - by rewrite Hnil in Hbuf.
Qed.

Lemma delivered_frame cr : delivered B s cr → delivered B s' cr.
Proof.
  intros [? Hfull]. split; [done|]. intros ? ch ?. apply chan_full_frame; auto.
Qed.

Lemma late_frame c (P P' : call → Prop) :
  (∀ cr, P cr → P' cr) → late s c P → late s' c P'.
Proof.
  intros HP (cr & Hc & Hwg & ?). exists cr. split; [|by auto].
  by eapply step_heap_late.
Qed.

Lemma early_frame c k (P P' : call → Prop) :
  executor th ≠ Some c →
  (∀ cr cr', P cr → val cr' = val cr → err cr' = err cr →
             chans cr `prefix_of` chans cr' → P' cr') →
  early s c k P → early s' c k P'.
Proof.
  intros Hex HP (cr & Hc & Hwg & HPcr & Hreg).
  destruct (step_heap _ _ _ _ _ _ HI Hstep Hth Hc)
    as (cr' & Hc' & _ & Hwg' & Hve & Hpre & _).
  destruct (Hve Hex) as [? ?].
  exists cr'. split; [done|]. split; [|split; [by eapply HP|]].
  - destruct Hwg' as [?|(_ & ? & _)]; [congruence|done].
  - intros k' Hk'. apply Hreg.
    destruct (step_registry _ _ _ _ _ _ HI Hstep Hth Hk') as [?|[Hnone _]];
      [done|congruence].
Qed.

Lemma chan_empty_frame ch :
  holds_lock th = false → chan_empty s ch → chan_empty s' ch.
Proof.
  intros Hl (q & Hq & Hbuf).
  destruct (step_unlocked _ _ _ _ HI Hstep Hth Hl) as (_ & _ & Hch).
  exists q. auto.
Qed.

Lemma blank_frame cr cr' :
  blank B cr → val cr' = val cr → err cr' = err cr → blank B cr'.
Proof. unfold blank. intros [? ?] -> ->. done. Qed.

Lemma stored_frame fn cr cr' :
  stored B fn cr → val cr' = val cr → err cr' = err cr → stored B fn cr'.
Proof. unfold stored. intros ? -> ->. done. Qed.

Lemma valid_frame c : is_Some (heap s !! c) → is_Some (heap s' !! c).
Proof.
  intros [cr Hc].
  destruct (step_heap _ _ _ _ _ _ HI Hstep Hth Hc) as (cr' & ? & _). eauto.
Qed.

Lemma registered_frame ch :
  (∃ c cr, heap s !! c = Some cr ∧ ch ∈ chans cr) →
  ∃ c cr, heap s' !! c = Some cr ∧ ch ∈ chans cr.
Proof.
  intros (c & cr & Hc & Hch).
  destruct (step_heap _ _ _ _ _ _ HI Hstep Hth Hc) as (cr' & ? & _ & _ & _ & Hpre & _).
  exists c, cr'. split; [done|]. by eapply elem_of_prefix.
Qed.

Lemma unregistered_frame ch :
  pending th ≠ Some ch →
  (ch < length (channels s))%nat ∧ (∀ c cr, heap s !! c = Some cr → ch ∉ chans cr) →
  (ch < length (channels s'))%nat ∧ (∀ c cr, heap s' !! c = Some cr → ch ∉ chans cr).
Proof.
  intros Hp [Hlt Hun]. split; [by eapply step_channels_lt|].
  intros c cr' Hc.
  destruct (step_heap_new _ _ _ _ _ _ HI Hstep Hth Hc)
    as [(cr & ? & Heq)|[(cr & ch' & k & fn & ? & -> & ? & Heq)
       |(-> & _ & _ & _ & [(k & fn & -> & ? & Heq)|(ch' & k & fn & -> & ? & Heq)])]];
    rewrite Heq; simpl in Hp; intros Hch;
    repeat match goal with
    | H : _ ∈ _ ++ _ |- _ => apply elem_of_app in H as [H|H]
    | H : _ ∈ [_] |- _ => apply list_elem_of_singleton in H; subst
    | H : _ ∈ [] |- _ => by apply elem_of_nil in H
    end; try done; by eapply Hun.
Qed.

Lemma dc_inv_frame inline c k fn p :
  executor th ≠ Some c → (in_critical p = true → holds_lock th = false) →
  dc_inv B s inline c k fn p → dc_inv B s' inline c k fn p.
Proof.
  intros Hex Hlk. destruct p; simpl; intros Hp;
    try (destruct Hp as [? Hp]; split; [done|]);
    try (eapply early_frame; [done| |done]; simpl;
         first [by eauto using blank_frame, stored_frame
               |destruct fn; by eauto using blank_frame, stored_frame]);
    try (by eapply late_frame; [|done]; simpl).
  - eapply late_frame; [|done]; simpl.
    intros cr (? & ? & sent & ? & ? & ?). do 2 (split; [done|]).
    exists sent. split; [done|].
    split; intros; [apply chan_full_frame|apply chan_empty_frame]; auto.
  - eapply late_frame; [|done]; simpl.
    intros cr [? ?]. split; [done|]. by apply delivered_frame.
Qed.

Lemma tinv_frame t2 th2 :
  t2 ≠ t → threads s !! t2 = Some th2 → tinv B s' th2.
Proof.
  intros Hne H2. pose proof (inv_thread s HI _ _ H2) as Ht.
  assert (∀ c, executor th2 = Some c → executor th ≠ Some c) as Hex.
  { intros c ? ?. apply Hne. by eapply (inv_executor s HI). }
  assert (holds_lock th2 = true → holds_lock th = false) as Hlk.
  { intros Hl2. destruct (holds_lock th) eqn:Hl; [|done]. destruct Hne.
    pose proof (inv_lock s HI _ _ H2 Hl2). pose proof (inv_lock s HI _ _ Hth Hl).
    congruence. }
  assert (∀ ch, pending th2 = Some ch → pending th ≠ Some ch) as Hpd.
  { intros c ? ?. apply Hne. by eapply (inv_pending s HI). }
  destruct th2 as [| | | | | | |[]| |
                   | | | | | | | |inline c k fn p| | | | | | ];
    simpl in *; try done;
    try (by apply valid_frame);
    try (by apply registered_frame);
    try (by apply unregistered_frame; auto);
    try (by apply dc_inv_frame; auto);
    try (by eapply late_frame; [|done]; simpl;
         intros; destruct_and?; eauto using delivered_frame);
    try (by eapply early_frame; [by auto| |done]; simpl;
         intros; destruct_and?; eauto using blank_frame, elem_of_prefix).
Qed.

End Frame.

Ltac unfold_preds :=
  unfold early, late, delivered, chan_full, chan_empty in *; simpl in *; refold.

Lemma stored_Goexits fn nr rc cr :
  (nr, rc) = flags fn → nr || rc = false → stored B fn cr → err cr = ErrGoexit.
Proof. destruct fn; simpl; intros [= -> ->] ?; naive_solver. Qed.

Lemma registry_new_only s key k' :
  Inv B s →
  <[key := length (heap s)]> (registry s) !! k' = Some (length (heap s)) →
  k' = key.
Proof.
  intros HI [[-> _]|[? Hk]]%lookup_insert_Some; [done|].
  destruct (inv_registry s HI _ _ Hk) as (cr & Hcr%lookup_lt_Some & _). lia.
Qed.

Lemma chans_empty_early s c cr ch :
  Inv B s → heap s !! c = Some cr → waitGroup cr = 1%nat → ch ∈ chans cr →
  chan_empty s ch.
Proof.
  intros HI Hc Hwg Hch.
  destruct (lookup_lt_is_Some_2 (channels s) ch) as [q Hq];
    [by eapply (inv_chan_valid s HI)|].
  exists q. split; [done|].
  destruct (inv_chan s HI _ _ Hq) as (_ & _ & [?|(c' & cr' & Hc' & Hch' & Hwg' & _)]);
    [done|].
  assert (c' = c) as -> by (by eapply (inv_disjoint s HI)).
  simplify_eq. lia.
Qed.

Lemma step_tinv_own s t s' th' :
  Inv B s → step B t s = Some s' → threads s' !! t = Some th' → tinv B s' th'.
Proof.
  intros HI Hstep H2.
  split_step Hstep; try held HI; simpl in *;
    try (erewrite lookup_stepped_eq in H2 by done);
    try (erewrite lookup_inserted_eq in H2 by done);
    simplify_eq; simpl; try done; own_facts HI;
    unfold_preds; unpack; simplify_eq;
    try (by eauto 10).
  - rewrite list_lookup_insert_eq by (by eapply lookup_lt_Some). eauto.
  - eexists. rewrite lookup_app_r, Nat.sub_diag by done. simpl.
    split_and!; try done. intros k'. by apply registry_new_only.
  - eexists. split_and!; try done.
  - rewrite length_app. simpl. split; [lia|]. intros c cr Hc Hch.
    pose proof (inv_chan_valid s HI _ _ _ Hc Hch). lia.
  - eexists _, _. rewrite list_lookup_insert_eq by (by eapply lookup_lt_Some).
    split; [done|]. simpl. apply elem_of_app. right. by left.
  - eexists. rewrite lookup_app_r, Nat.sub_diag by done. simpl.
    split_and!; try done; [by left|]. intros k'. by apply registry_new_only.
  - split; [done|]. eexists. rewrite list_lookup_insert_eq by (by eapply lookup_lt_Some).
    split_and!; try done.
  - split; [done|]. eexists. rewrite list_lookup_insert_eq by (by eapply lookup_lt_Some).
    split_and!; try done; simpl. 
    + match goal with H : blank B _ |- _ => apply H end.
    + by rewrite decide_False.
  - split; [done|]. eexists. rewrite list_lookup_insert_eq by (by eapply lookup_lt_Some).
    split_and!; try done; simpl.
    destruct fn; simplify_eq/=. by destruct H3.
  - split; [done|]. eexists. split_and!; try done.
    destruct fn; simplify_eq/=; done.
  - lia.
  - exists (wg_done cr). rewrite list_lookup_insert_eq by (by eapply lookup_lt_Some).
    split_and!; try done; simpl; lia.
  - exists (wg_done cr). rewrite list_lookup_insert_eq by (by eapply lookup_lt_Some).
    split_and!; try done; simpl; lia.
  - split; [done|]. exists (wg_done cr).
    rewrite list_lookup_insert_eq by (by eapply lookup_lt_Some).
    split_and!; try done; simpl; lia.
  - split; [done|]. exists (wg_done cr).
    rewrite list_lookup_insert_eq by (by eapply lookup_lt_Some).
    split_and!; try done; simpl; try lia.
    exists []. split_and!; try done.
    + by intros ? ?%elem_of_nil.
    + intros ch Hch. by eapply chans_empty_early.
  - split; [done|]. eexists. split_and!; try done.
    + match goal with H : ordinary B _ |- _ => apply H end.
    + intros _ ch Hch. match goal with H : chans _ = _ ++ [] |- _ =>
        rewrite H, app_nil_r in Hch end. auto.
  - destruct (inv_chan s HI _ _ Hq) as (_ & ? & _). congruence.
  - split; [done|]. exists cr. split_and!; try done.
    destruct (H7 n) as (q' & ? & Hq'); [by left|]. simplify_eq.
    pose proof (inv_nodup s HI _ _ Hcr) as Hnd. rewrite H5 in Hnd.
    apply NoDup_app in Hnd as (_ & _ & [Hn _]%NoDup_cons).
    exists (x0 ++ [n]). rewrite <-app_assoc. split; [done|]. split.
    + intros ch [Hch|Hch%list_elem_of_singleton]%elem_of_app.
      * destruct (decide (ch = n)) as [->|].
        -- rewrite list_lookup_insert_eq by (by eapply lookup_lt_Some).
           eexists; split; [done|]. simpl. by rewrite Hq'.
        -- rewrite list_lookup_insert_ne by done. auto.
      * subst. rewrite list_lookup_insert_eq by (by eapply lookup_lt_Some).
        eexists; split; [done|]. simpl. by rewrite Hq'.
    + intros ch Hch. rewrite list_lookup_insert_ne by (by intros ->).
      apply H7. by right.
  - eexists. split_and!; try done. by eapply stored_Goexits.
Qed.

Lemma step_tinv_spawned s t s' t2 th2 :
  Inv B s → step B t s = Some s' → threads s' !! t2 = Some th2 →
  (length (threads s) ≤ t2)%nat → tinv B s' th2.
Proof.
  intros HI Hstep H2 Hge.
  assert (t < length (threads s))%nat as Hlt.
  { destruct (step_thread_some _ _ _ Hstep) as [th Hth]. by eapply lookup_lt_Some. }
  split_step Hstep; try held HI; simpl in *; try thread_cases H2;
    try (apply lookup_lt_Some in H2); try lia; simpl; try done.
  own_facts HI. unfold_preds; unpack. eauto 10.
Qed.

Lemma step_inv_thread s t s' :
  Inv B s → step B t s = Some s' →
  ∀ t2 th2, threads s' !! t2 = Some th2 → tinv B s' th2.
Proof.
  intros HI Hstep t2 th2 H2.
  destruct (step_thread_some _ _ _ Hstep) as [th Hth].
  destruct (decide (t2 = t)) as [->|Hne]; [by eapply step_tinv_own|].
  destruct (threads s !! t2) as [th2'|] eqn:H2'.
  - rewrite (step_threads_other _ _ _ _ _ Hstep Hne H2') in H2. simplify_eq.
    by eapply tinv_frame.
  - apply lookup_ge_None in H2'. by eapply step_tinv_spawned.
Qed.

(** ** The invariant holds in every reachable state *)

Lemma Inv_step s t s' : Inv B s → step B t s = Some s' → Inv B s'.
Proof.
  intros HI Hstep. split.
  - by eapply step_inv_lock.
  - by eapply step_inv_registry.
  - by eapply step_inv_chan_valid.
  - by eapply step_inv_chan.
  - by eapply step_inv_nodup.
  - by eapply step_inv_disjoint.
  - by eapply step_inv_thread.
  - by eapply step_inv_executor.
  - by eapply step_inv_pending.
  - by eapply step_inv_dups.
  - by eapply step_inv_orig.
Qed.

Lemma Inv_init rs : Inv B (init rs).
Proof.
  split; simpl; try (intros; by simplify_list_eq).
  - intros t th Hth%list_lookup_fmap_Some. by destruct Hth as ([] & -> & _).
  - intros t th Hth%list_lookup_fmap_Some. by destruct Hth as ([] & -> & _).
  - intros t1 t2 th1 th2 c [[] [-> _]]%list_lookup_fmap_Some; done.
  - intros t1 t2 th1 th2 c [[] [-> _]]%list_lookup_fmap_Some; done.
Qed.

Theorem reachable_Inv rs s : reachable B rs s → Inv B s.
Proof. induction 1; eauto using Inv_init, Inv_step. Qed.

(** ** Properties of the join protocols *)

(** *** The stack snapshot of a [panicError] *)

Lemma IndexByte_ge bs b : -1 ≤ IndexByte bs b.
Proof.
  induction bs as [|x bs IH]; simpl; [lia|].
  case_decide; [lia|]. destruct (IndexByte bs b <? 0) eqn:E; lia.
Qed.

Lemma IndexByte_first line rest b :
  b ∉ line → IndexByte (line ++ b :: rest) b = Z.of_nat (length line).
Proof.
  induction line as [|x line IH]; simpl; intros Hb.
  - by rewrite decide_True.
  - apply not_elem_of_cons in Hb as [? ?]. rewrite decide_False by done.
    rewrite IH by done. destruct (Z.of_nat (length line) <? 0) eqn:E; lia.
Qed.

Lemma IndexByte_none bs b : b ∉ bs → IndexByte bs b = -1.
Proof.
  induction bs as [|x bs IH]; simpl; intros Hb; [done|].
  apply not_elem_of_cons in Hb as [? ?]. rewrite decide_False by done.
  by rewrite IH.
Qed.

Lemma newPanicError_strips r line rest :
  x0a ∉ line → newPanicError r (line ++ x0a :: rest) = ErrPanic TAny r rest.
Proof.
  intros Hline. unfold newPanicError, slice_from. cbv zeta.
  rewrite IndexByte_first by done.
  rewrite (proj2 (Z.leb_le _ _)) by lia.
  replace (Z.to_nat (Z.of_nat (length line) + 1)) with (S (length line)) by lia.
  f_equal. clear Hline. induction line as [|x line IH]; simpl; [done|].
  by rewrite IH.
Qed.

Lemma newPanicError_one_line r stk :
  x0a ∉ stk → newPanicError r stk = ErrPanic TAny r stk.
Proof. intros Hstk. unfold newPanicError. by rewrite IndexByte_none. Qed.

(** Enabledness: the next state of a goroutine that is not blocked. *)
Lemma step_unfold s t th :
  crashed s = None → threads s !! t = Some th →
  step B t s =
  match th with
  | DoLock k fn => s' ← lock t s; Some (set_thread t (DoLookup k fn) s')
  | DoLookup k fn => do_lookup B t k fn s
  | DoDupUnlock c => Some (set_thread t (DoDupWait c) (unlock s))
  | DoDupWait c =>
      cr ← heap s !! c;
      match waitGroup cr with
      | O => Some (set_thread t (DoDupCheck c) s)
      | S _ => None
      end
  | DoDupCheck c =>
      cr ← heap s !! c;
      if is_panicError B (err cr) then Some (set_thread t (DoPanicked Dup c (err cr)) s)
      else if decide (err cr = ErrGoexit) then Some (set_thread t (DoGoexited Dup c) s)
      else Some (set_thread t (DoReturned Dup c (val cr) (err cr) true) s)
  | DoNewUnlock c k fn => Some (set_thread t (InDoCall true c k fn DcCall) (unlock s))
  | DoNewRet c =>
      cr ← heap s !! c;
      Some (set_thread t (DoReturned Orig c (val cr) (err cr) (0 <? dups cr)) s)
  | DoReturned _ _ _ _ _ | DoPanicked _ _ _ | DoGoexited _ _ => None
  | ChMake k fn =>
      Some (set_thread t (ChLock (length (channels s)) k fn)
             (set_channels (channels s ++ [Chan 1 [] false]) s))
  | ChLock ch k fn => s' ← lock t s; Some (set_thread t (ChLookup ch k fn) s')
  | ChLookup ch k fn => dochan_lookup B t ch k fn s
  | ChDupUnlock ch => Some (set_thread t (ChReturned ch) (unlock s))
  | ChNewUnlock ch c k fn => Some (set_thread t (ChSpawn ch c k fn) (unlock s))
  | ChSpawn ch c k fn =>
      Some (set_thread t (ChReturned ch) (spawn (InDoCall false c k fn DcCall) s))
  | ChReturned _ => None
  | InDoCall inline c k fn p => docall_step B t inline c k fn p s
  | GoEnded _ => None
  | FgLock k => s' ← lock t s; Some (set_thread t (FgDelete k) s')
  | FgDelete k =>
      Some (set_thread t (FgUnlock k) (set_workspaces (delete k <$> workspaces s) s))
  | FgUnlock k => Some (set_thread t (FgReturned k) (unlock s))
  | FgReturned _ => None
  | GoPanic e => Some (set_crashed e s)
  end.
Proof. intros Hc Hth. unfold step. by rewrite Hc, Hth. Qed.

(** C8, as the code has it: when the supplier panics and [recover()]
    returns a non-nil [v], [doCall] stores a [panicError] that holds [v]
    and the stack snapshot without its first line (the
    [goroutine N [status]:] line, up to and including the first newline),
    and [Error()] of that failure is [v] formatted with [%v], a blank
    line, and the stack text.  When [recover()] returns nil (a
    [panic(nil)] before Go 1.21) the test [r != nil] of line 131 fails and
    nothing is stored: the record is left as it was, with a nil failure.
    In both cases [val] stays the zero value and [doCall] goes on to its
    deferred function with [normalReturn = false] and
    [recovered = true]. *)
Theorem C8_panic_error_wraps_value_and_stack rs s t inline c k v line rest :
  reachable B rs s → crashed s = None →
  threads s !! t = Some (InDoCall inline c k (Panics v (line ++ x0a :: rest)) DcCall) →
  (x0a ∉ line) →
  ∃ s' cr cr', heap s !! c = Some cr ∧ step B t s = Some s' ∧
    heap s' !! c = Some cr' ∧
    threads s' !! t =
      Some (InDoCall inline c k (Panics v (line ++ x0a :: rest)) (DcDefer false true)) ∧
    val cr' = zero B ∧
    (v ≠ VNil →
       err cr' = ErrPanic TAny v rest ∧
       Error (err cr') = fmt_v v +:+ nl +:+ nl +:+ fmt_s rest) ∧
    (v = VNil → cr' = cr ∧ err cr' = ErrNil).
Proof.
  intros Hr Hc Hth Hline. pose proof (reachable_Inv _ _ Hr) as HI.
  pose proof (inv_thread s HI _ _ Hth) as (cr & Hcr & _ & [Hval Herr] & _).
  simpl in *.
  assert (t < length (threads s))%nat as Hlt by (by eapply lookup_lt_Some).
  rewrite (step_unfold _ _ _ Hc Hth). unfold docall_step. rewrite Hcr.
  cbn [mbind option_bind]. destruct (decide (v = VNil)) as [Hv|Hv].
  - eexists _, cr, cr. split_and!; [done|done|done| |done|done|done].
    simpl. by apply list_lookup_insert_eq.
  - rewrite newPanicError_strips by done.
    eexists _, cr, (set_err (ErrPanic TAny v rest) cr).
    split_and!; [done|done| | |done|done|done].
    + simpl. by rewrite list_lookup_insert_eq by (by eapply lookup_lt_Some).
    + simpl. by apply list_lookup_insert_eq.
Qed.

(** C10: every channel has capacity one and is sent to at most once, and
    no send of the fan-out loop blocks, although nothing ever receives
    from a channel. *)
Theorem C10_fanout_never_blocks rs s :
  reachable B rs s →
  (∀ ch q, channels s !! ch = Some q →
     cap q = 1%nat ∧ (length (buf q) ≤ 1)%nat) ∧
  (∀ t inline c k fn nr rc ch rest,
     crashed s = None →
     threads s !! t = Some (InDoCall inline c k fn (DcSend nr rc (ch :: rest))) →
     ∃ s' cr q',
       step B t s = Some s' ∧ heap s !! c = Some cr ∧
       threads s' !! t = Some (InDoCall inline c k fn (DcSend nr rc rest)) ∧
       channels s' !! ch = Some q' ∧ buf q' = [envelope cr]).
Proof.
  intros Hr. pose proof (reachable_Inv _ _ Hr) as HI. split.
  - intros ch q Hq.
    destruct (inv_chan s HI _ _ Hq) as (? & ? & [Hb|(? & ? & ? & ? & ? & ? & Hb)]);
      rewrite Hb; simpl; split; auto.
  - intros t inline c k fn nr rc ch rest Hc Hth.
    pose proof (inv_thread s HI _ _ Hth) as (_ & cr & Hcr & _ & _ & _ & sent & _ & _ & Hrest).
    destruct (Hrest ch) as (q & Hq & Hbuf); [by left|].
    destruct (inv_chan s HI _ _ Hq) as (Hcap & Hcl & _).
    rewrite (step_unfold _ _ _ Hc Hth). simpl. rewrite Hcr, Hq. simpl.
    rewrite Hcl, Hbuf, Hcap. simpl.
    eexists _, _, _. split; [done|]. split; [done|]. simpl.
    split; [by eapply lookup_inserted_eq|].
    rewrite list_lookup_insert_eq by (by eapply lookup_lt_Some). done.
Qed.


Ltac rw_heap :=
  match goal with
  | H : heap ?s !! ?c = Some _ |- context [heap ?s !! ?c] => rewrite H
  end.

Lemma chans_empty_goexit s c cr ch :
  Inv B s → heap s !! c = Some cr → err cr = ErrGoexit → ch ∈ chans cr →
  chan_empty s ch.
Proof.
  intros HI Hc Herr Hch.
  destruct (lookup_lt_is_Some_2 (channels s) ch) as [q Hq];
    [by eapply (inv_chan_valid s HI)|].
  exists q. split; [done|].
  destruct (inv_chan s HI _ _ Hq)
    as (_ & _ & [?|(c' & cr' & Hc' & Hch' & _ & [_ Hord] & _)]); [done|].
  assert (c' = c) as -> by (by eapply (inv_disjoint s HI)).
  by simplify_eq.
Qed.

(** C4: when the supplier ends by [runtime.Goexit], [doCall] takes
    neither the panic branches nor the fan-out loop: it stores
    [errGoexit], brings the WaitGroup to zero, leaves every channel of the
    record empty and lets the goroutine go on exiting.  The channels of a
    record whose failure is [errGoexit] are empty in every state; a
    duplicate caller of [Do] wakes once the WaitGroup is at zero, and when
    it finds [errGoexit] it calls [runtime.Goexit] itself instead of
    returning. *)
Theorem C4_goexit_is_stored_and_repeated_by_duplicates rs s :
  reachable B rs s → crashed s = None →
  (∀ t inline c k p,
     threads s !! t = Some (InDoCall inline c k Goexits p) →
     ∃ cr, heap s !! c = Some cr ∧
       (∀ ch q, ch ∈ chans cr → channels s !! ch = Some q → buf q = []) ∧
       match p with
       | DcCall =>
           ∃ s', step B t s = Some s' ∧
             threads s' !! t = Some (InDoCall inline c k Goexits (DcDefer false false))
       | DcDefer nr rc =>
           ∃ s' cr', step B t s = Some s' ∧
             heap s' !! c = Some cr' ∧ err cr' = ErrGoexit ∧
             threads s' !! t = Some (InDoCall inline c k Goexits (DcLock false false))
       | DcLock nr rc =>
           nr = false ∧ rc = false ∧ err cr = ErrGoexit ∧
           (mu s = None → ∃ s', step B t s = Some s' ∧
              threads s' !! t = Some (InDoCall inline c k Goexits (DcDone false false)))
       | DcDone nr rc =>
           ∃ s' cr', step B t s = Some s' ∧
             heap s' !! c = Some cr' ∧ waitGroup cr' = 0%nat ∧ err cr' = ErrGoexit ∧
             channels s' = channels s ∧ length (threads s') = length (threads s) ∧
             threads s' !! t = Some (InDoCall inline c k Goexits (DcUnlock false false))
       | DcUnlock nr rc =>
           waitGroup cr = 0%nat ∧ err cr = ErrGoexit ∧
           ∃ s', step B t s = Some s' ∧ crashed s' = None ∧
             channels s' = channels s ∧ length (threads s') = length (threads s) ∧
             threads s' !! t = Some (if inline then DoGoexited Orig c else GoEnded c)
       | DcGoPanic _ | DcSelect | DcPanic _ | DcSend _ _ _ => False
       end) ∧
  (∀ c cr ch q,
     heap s !! c = Some cr → err cr = ErrGoexit →
     ch ∈ chans cr → channels s !! ch = Some q → buf q = []) ∧
  (∀ t c cr,
     threads s !! t = Some (DoDupWait c) → heap s !! c = Some cr →
     waitGroup cr = 0%nat →
     ∃ s', step B t s = Some s' ∧ threads s' !! t = Some (DoDupCheck c)) ∧
  (∀ t c cr,
     threads s !! t = Some (DoDupCheck c) → heap s !! c = Some cr →
     err cr = ErrGoexit →
     ∃ s', step B t s = Some s' ∧ threads s' !! t = Some (DoGoexited Dup c)).
Proof.
  intros Hr Hc. pose proof (reachable_Inv _ _ Hr) as HI. split_and!.
  - intros t inline c k p Hth.
    pose proof (inv_thread s HI _ _ Hth) as Ht. simpl in Ht.
    destruct (dc_inv_valid _ _ _ _ _ _ Ht) as [cr Hcr]. exists cr. split; [done|].
    assert (waitGroup cr = 1%nat ∨ err cr = ErrGoexit →
            ∀ ch q, ch ∈ chans cr → channels s !! ch = Some q → buf q = []) as Hempty.
    { intros Hor ch q Hch Hq.
      assert (chan_empty s ch) as (q' & ? & ?); [|by simplify_eq].
      destruct Hor; eauto using chans_empty_early, chans_empty_goexit. }
    rewrite (step_unfold _ _ _ Hc Hth).
    destruct p; simpl in Ht; unfold early, late in Ht; unpack;
      unfold stored in *; unpack; simplify_eq/=;
      try match goal with H : ordinary B (err ?cr), H' : err ?cr = ErrGoexit |- _ =>
        rewrite H' in H; by destruct H end;
      try match goal with H : is_panicError B (err ?cr) = true, H' : err ?cr = ErrGoexit |- _ =>
        by rewrite H' in H end;
      try match goal with H : is_panicError B ?e = true, H' : ?e = err ?cr,
                          H'' : err ?cr = ErrGoexit |- _ =>
        by rewrite H', H'' in H end;
      (split; [by apply Hempty; auto|]); try rw_heap; simpl.
    + eexists. split; [done|]. by eapply lookup_inserted_eq.
    + eexists _, _. split; [done|]. simpl.
      rewrite list_lookup_insert_eq by (by eapply lookup_lt_Some).
      split_and!; try done. by eapply lookup_inserted_eq.
    + split_and!; try done. intros Hmu. unfold lock. rewrite Hmu.
      simpl. eexists. split; [done|]. by eapply lookup_inserted_eq.
    + repeat match goal with H : _ = _ |- _ => rewrite H end. simpl.
      eexists _, _. split; [done|]. simpl.
      rewrite list_lookup_insert_eq by (by eapply lookup_lt_Some).
      split_and!; try done; simpl.
      * by match goal with H : waitGroup _ = _ |- _ => rewrite H end.
      * by rewrite length_insert.
      * by eapply lookup_inserted_eq.
    + split_and!; try done.
      rewrite (unlock_held s t) by (by eapply (inv_lock s HI)).
      eexists. split; [done|]. simpl. split_and!; try done.
      * by rewrite length_insert.
      * destruct inline; by eapply lookup_inserted_eq.
  - intros c cr ch q Hcr Herr Hch Hq.
    destruct (chans_empty_goexit _ _ _ _ HI Hcr Herr Hch) as (q' & ? & ?).
    by simplify_eq.
  - intros t c cr Hth Hcr Hwg. rewrite (step_unfold _ _ _ Hc Hth). simpl.
    rewrite Hcr. simpl. rewrite Hwg. eexists. split; [done|].
    by eapply lookup_inserted_eq.
  - intros t c cr Hth Hcr Herr. rewrite (step_unfold _ _ _ Hc Hth). simpl.
    rewrite Hcr. simpl. rewrite Herr. simpl. eexists. split; [done|].
    by eapply lookup_inserted_eq.
Qed.

(** *** Who observes what *)

Lemma joiners_pos s c cr : Inv B s → heap s !! c = Some cr → 1 ≤ joiners s c cr.
Proof.
  intros HI Hc. unfold joiners.
  destruct (inv_orig s HI _ _ Hc) as [Hne|(t & th & Hth & Hj & _)].
  - destruct (chans cr); [done|]. simpl. lia.
  - pose proof (count_joined_pos _ _ _ _ Hth Hj). lia.
Qed.

Lemma joiners_dup s c cr t th :
  Inv B s → heap s !! c = Some cr → threads s !! t = Some th →
  joined th = Some c → executor th = None → 2 ≤ joiners s c cr.
Proof.
  intros HI Hc Hth Hj Hex. unfold joiners.
  destruct (inv_orig s HI _ _ Hc) as [Hne|(t' & th' & Hth' & Hj' & Hex')].
  - pose proof (count_joined_pos _ _ _ _ Hth Hj).
    destruct (chans cr); [done|]. simpl. lia.
  - assert (t ≠ t') by (intros ->; simplify_eq).
    pose proof (count_joined_two _ _ _ _ _ _ H0 Hth Hth' Hj Hj'). lia.
Qed.

Lemma dups_joiners s c cr :
  Inv B s → heap s !! c = Some cr → joiners s c cr < 2 ^ 63 →
  dups cr = joiners s c cr - 1.
Proof.
  intros HI Hc Hlt. pose proof (joiners_pos _ _ _ HI Hc).
  rewrite (inv_dups s HI _ _ Hc). apply int_wrap_small. lia.
Qed.

Lemma envelope_of_record s c cr ch q r :
  Inv B s → heap s !! c = Some cr → ch ∈ chans cr →
  channels s !! ch = Some q → r ∈ buf q →
  r = envelope cr ∧ buf q = [envelope cr] ∧ waitGroup cr = 0%nat ∧ ordinary B (err cr).
Proof.
  intros HI Hc Hch Hq Hr.
  destruct (inv_chan s HI _ _ Hq)
    as (_ & _ & [Hb|(c' & cr' & Hc' & Hch' & ? & ? & Hb)]);
    rewrite Hb in Hr; [by apply elem_of_nil in Hr|].
  assert (c' = c) as -> by (by eapply (inv_disjoint s HI)). simplify_eq.
  by apply list_elem_of_singleton in Hr as ->.
Qed.

Lemma shared_flags s c cr :
  Inv B s → heap s !! c = Some cr → joiners s c cr < 2 ^ 63 →
  (∀ t r v e sh, threads s !! t = Some (DoReturned r c v e sh) →
     (sh = true ↔ 2 ≤ joiners s c cr) ∧
     sh = match r with Orig => 0 <? dups cr | Dup => true end) ∧
  (∀ ch q r, ch ∈ chans cr → channels s !! ch = Some q → r ∈ buf q →
     (Shared r = true ↔ 2 ≤ joiners s c cr) ∧ Shared r = (0 <? dups cr)).
Proof.
  intros HI Hc Hlt.
  pose proof (dups_joiners _ _ _ HI Hc Hlt) as Hd.
  assert ((0 <? dups cr) = true ↔ 2 ≤ joiners s c cr) as Hiff.
  { rewrite Z.ltb_lt. lia. }
  split.
  - intros t r v e sh Hth. pose proof (inv_thread s HI _ _ Hth) as Ht.
    destruct r; simpl in Ht; destruct Ht as (cr' & ? & _ & Ht); simplify_eq.
    + destruct Ht as (_ & _ & _ & ->). done.
    + destruct Ht as (_ & _ & _ & ->). split; [|done]. split; [|done].
      intros _. by eapply joiners_dup.
  - intros ch q r Hch Hq Hin.
    destruct (envelope_of_record _ _ _ _ _ _ HI Hc Hch Hq Hin) as (-> & _).
    done.
Qed.

(** C6: the flag a caller gets is true exactly when at least one other
    caller joined the same call: the caller that started the call gets
    [c.dups > 0], a duplicate gets [true], and every envelope carries
    [c.dups > 0]; the counter is the number of callers that joined, less
    one. *)
Theorem C6_shared_iff_another_caller_joined rs s c cr :
  reachable B rs s → heap s !! c = Some cr → joiners s c cr < 2 ^ 63 →
  (∀ t r v e sh, threads s !! t = Some (DoReturned r c v e sh) →
     (sh = true ↔ 2 ≤ joiners s c cr) ∧
     sh = match r with Orig => 0 <? dups cr | Dup => true end) ∧
  (∀ ch q r, ch ∈ chans cr → channels s !! ch = Some q → r ∈ buf q →
     (Shared r = true ↔ 2 ≤ joiners s c cr) ∧ Shared r = (0 <? dups cr)).
Proof. intros Hr. apply shared_flags. by eapply reachable_Inv. Qed.

Lemma count_if_zero {A} (f : A → bool) l :
  (∀ x, x ∈ l → f x = false) → count_if f l = 0%nat.
Proof.
  induction l as [|x l IH]; intros Hf; simpl; [done|].
  rewrite (Hf x) by (by left). rewrite IH; [done|].
  intros y ?. apply Hf. by right.
Qed.

Lemma count_if_le_length {A} (f : A → bool) l : (count_if f l ≤ length l)%nat.
Proof. induction l as [|x l IH]; simpl; [done|]. destruct (f x); lia. Qed.

Lemma count_unshared_le_joined c (l : list thread) :
  (count_if (unshared_return c) l ≤ count_joined c l)%nat.
Proof.
  induction l as [|th l IH]; simpl; [done|].
  destruct (unshared_return c th) eqn:E; [|lia].
  destruct th as [| | | | | | |? ? ? ? []| | | | | | | | | | | | | | | | ];
    simplify_eq/=. apply bool_decide_eq_true in E as ->.
  rewrite decide_True by done. lia.
Qed.

(** C7, as the code has it: when two or more callers joined one
    execution, no result of that execution carries [shared = false]; a
    result with [shared = false] needs a sole caller, and then there is at
    most one. *)
Theorem C7_no_unshared_result_among_several_joiners rs s c cr :
  reachable B rs s → heap s !! c = Some cr → joiners s c cr < 2 ^ 63 →
  (2 ≤ joiners s c cr → unshared_results s c cr = 0%nat) ∧
  (joiners s c cr = 1 → (unshared_results s c cr ≤ 1)%nat).
Proof.
  intros Hr Hc Hlt.
  destruct (shared_flags _ _ _ (reachable_Inv _ _ Hr) Hc Hlt) as [Hdo Hch].
  split.
  - intros Hge. unfold unshared_results.
    rewrite !count_if_zero; [done| |].
    + intros ch Hin. unfold unshared_envelope.
      destruct (channels s !! ch) as [q|] eqn:Hq; [|done].
      apply not_true_is_false. intros (r & Hr' & Hsh)%existsb_exists.
      apply list_elem_of_In in Hr'.
      destruct (Hch _ _ _ Hin Hq Hr') as [Hiff _].
      apply Hiff in Hge. by rewrite Hge in Hsh.
    + intros th [t Hth]%list_elem_of_lookup.
      destruct th as [| | | | | | |r c' v e []| | | | | | | | | | | | | | | | ];
        try done. simpl. apply bool_decide_eq_false. intros ->.
      destruct (Hdo _ _ _ _ _ Hth) as [Hiff _]. by apply Hiff in Hge.
  - intros Hone. unfold unshared_results, joiners in *.
    pose proof (count_unshared_le_joined c (threads s)).
    pose proof (count_if_le_length (unshared_envelope s) (chans cr)). lia.
Qed.

(** C5, as the code has it: no step of [DoChan] but [g.mu.Lock()] can
    block, so [DoChan] never waits for the execution; no channel is ever
    closed or holds more than one envelope; the channel [DoChan] returns
    is registered with one record, holds exactly the envelope of that
    record once the goroutine that executes it has left the fan-out with
    a stored failure that is neither [errGoexit] nor a [panicError[B]],
    and stays empty when the stored failure is one of these two. *)
Theorem C5_dochan_returns_a_channel_with_at_most_one_envelope rs s :
  reachable B rs s → crashed s = None →
  (∀ t th, threads s !! t = Some th →
     match th with
     | ChMake _ _ | ChLookup _ _ _ | ChDupUnlock _
     | ChNewUnlock _ _ _ _ | ChSpawn _ _ _ _ => is_Some (step B t s)
     | ChLock _ _ _ => mu s = None → is_Some (step B t s)
     | _ => True
     end) ∧
  (∀ ch q, channels s !! ch = Some q →
     closed q = false ∧ (length (buf q) ≤ 1)%nat) ∧
  (∀ t ch, threads s !! t = Some (ChReturned ch) →
     ∃ c cr q, heap s !! c = Some cr ∧ ch ∈ chans cr ∧
       channels s !! ch = Some q ∧
       (¬ ordinary B (err cr) → buf q = []) ∧
       (ordinary B (err cr) →
        ∀ t' th', threads s !! t' = Some th' → executor th' = Some c →
          past_fanout th' = true → buf q = [envelope cr])).
Proof.
  intros Hr Hc. pose proof (reachable_Inv _ _ Hr) as HI. split_and!.
  - intros t th Hth. pose proof (inv_thread s HI _ _ Hth) as Ht.
    destruct th; try done; rewrite (step_unfold _ _ _ Hc Hth); simpl; eauto.
    + intros Hmu. unfold lock. rewrite Hmu. simpl. eauto.
    + unfold dochan_lookup. destruct (registry s !! key) as [c|] eqn:Hreg; [|eauto].
      destruct (inv_registry s HI _ _ Hreg) as (cr & -> & _). simpl. eauto.
  - intros ch q Hq.
    destruct (inv_chan s HI _ _ Hq) as (? & ? & [Hb|(? & ? & ? & ? & ? & ? & Hb)]);
      rewrite Hb; simpl; split; auto.
  - intros t ch Hth.
    pose proof (inv_thread s HI _ _ Hth) as (c & cr & Hcr & Hch).
    destruct (lookup_lt_is_Some_2 (channels s) ch) as [q Hq];
      [by eapply (inv_chan_valid s HI)|].
    exists c, cr, q. split_and!; try done.
    + intros Hno. destruct (buf q) as [|r l] eqn:Hb; [done|].
      destruct (envelope_of_record s c cr ch q r HI Hcr Hch Hq) as (_ & _ & _ & ?);
        [rewrite Hb; by left|done].
    + intros [Hnp Hng] t' th' Hth' Hex Hpast.
      pose proof (inv_thread s HI _ _ Hth') as Ht.
      assert (late s c (delivered B s)) as (cr' & ? & _ & _ & Hfull).
      { destruct th' as [| | | | | | |[]| |[]| | | | | | | |? ? ? ? []| | | | | | ];
          simplify_eq/=; unfold late in *; unpack; eauto 10.
        by simplify_eq. }
      simplify_eq. destruct (Hfull Hng ch Hch) as (q' & ? & ?). by simplify_eq.
Qed.

(** C1, as the code has it: while the registry holds record [c] for key
    [k], a join with [k], by [Do] or by [DoChan], attaches to [c]: it
    makes no record, starts no goroutine and leaves the registry as it
    is.  One goroutine at most executes a record, so its supplier runs at
    most once, and whatever a caller that joined [c] gets, as a return of
    [Do] or in an envelope, is the pair [(c.val, c.err)] of that one
    record. *)
Theorem C1_joins_attach_to_the_registered_execution rs s :
  reachable B rs s → crashed s = None →
  (∀ t k c fn, registry s !! k = Some c →
     threads s !! t = Some (DoLookup k fn) →
     ∃ s' cr, step B t s = Some s' ∧
       heap s !! c = Some cr ∧ waitGroup cr = 1%nat ∧
       threads s' !! t = Some (DoDupUnlock c) ∧
       length (heap s') = length (heap s) ∧
       length (threads s') = length (threads s) ∧
       registry s' = registry s) ∧
  (∀ t ch k c fn, registry s !! k = Some c →
     threads s !! t = Some (ChLookup ch k fn) →
     ∃ s' cr cr', step B t s = Some s' ∧
       heap s !! c = Some cr ∧ waitGroup cr = 1%nat ∧
       heap s' !! c = Some cr' ∧ ch ∈ chans cr' ∧
       threads s' !! t = Some (ChDupUnlock ch) ∧
       length (heap s') = length (heap s) ∧
       length (threads s') = length (threads s) ∧
       registry s' = registry s) ∧
  (∀ c t1 t2 th1 th2,
     threads s !! t1 = Some th1 → threads s !! t2 = Some th2 →
     executor th1 = Some c → executor th2 = Some c → t1 = t2) ∧
  (∀ c cr, heap s !! c = Some cr →
     (∀ t r v e sh, threads s !! t = Some (DoReturned r c v e sh) →
        v = val cr ∧ e = err cr) ∧
     (∀ ch q r, ch ∈ chans cr → channels s !! ch = Some q → r ∈ buf q →
        value r = val cr ∧ Err r = err cr)).
Proof.
  intros Hr Hc. pose proof (reachable_Inv _ _ Hr) as HI. split_and!.
  - intros t k c fn Hreg Hth.
    destruct (inv_registry s HI _ _ Hreg) as (cr & Hcr & Hwg).
    rewrite (step_unfold _ _ _ Hc Hth). unfold do_lookup. rewrite Hreg, Hcr.
    eexists _, cr. split; [done|]. simpl. rewrite !length_insert.
    split_and!; try done. by eapply lookup_inserted_eq.
  - intros t ch k c fn Hreg Hth.
    destruct (inv_registry s HI _ _ Hreg) as (cr & Hcr & Hwg).
    rewrite (step_unfold _ _ _ Hc Hth). unfold dochan_lookup. rewrite Hreg, Hcr.
    eexists _, cr, _. split; [done|]. simpl. rewrite !length_insert.
    rewrite list_lookup_insert_eq by (by eapply lookup_lt_Some).
    split_and!; try done.
    + simpl. apply elem_of_app. right. by left.
    + by eapply lookup_inserted_eq.
  - intros c t1 t2 th1 th2. apply (inv_executor s HI).
  - intros c cr Hcr. split.
    + intros t r v e sh Hth. pose proof (inv_thread s HI _ _ Hth) as Ht.
      destruct r; simpl in Ht; destruct Ht as (cr' & ? & _ & Ht); simplify_eq;
        by destruct Ht as (_ & -> & -> & _).
    + intros ch q r Hch Hq Hin.
      by destruct (envelope_of_record _ _ _ _ _ _ HI Hcr Hch Hq Hin) as (-> & _).
Qed.

(** *** Schedules *)

Lemma run_reachable rs sched s s' :
  reachable B rs s → run B sched s = Some s' → reachable B rs s'.
Proof.
  revert s. induction sched as [|t sched IH]; intros s Hr Hrun; simplify_eq/=;
    [done|].
  destruct (step B t s) as [s1|] eqn:Hstep; [|done]. simpl in Hrun.
  eapply IH; [|done]. by eapply reachable_step.
Qed.

(** The type assertion of [Do] and [doCall] on what [newPanicError]
    makes: it holds only in a group whose value type is [any]. *)
Lemma is_panicError_newPanicError r stk :
  is_panicError B (newPanicError r stk) = bool_decide (TAny = B).
Proof. done. Qed.

(** ** Further properties of the package *)

(** *** Who holds the mutex, who executes a record *)

(** As [thread_cases], for a lookup that names the goroutine it finds. *)
Ltac thread_cases' H2 :=
  first
  [ eapply lookup_stepped in H2 as [[? ?]|[[? H2]|(? & ? & ?)]]; [| | |eassumption]
  | apply list_lookup_insert_Some in H2 as [(? & ? & ?)|[? H2]] ].

Ltac stepped_thread :=
  first [by eapply lookup_inserted_eq|by eapply lookup_stepped_eq|eassumption].

Lemma step_alive_holder s t s' :
  Inv B s → Alive B s → step B t s = Some s' →
  ∀ h, mu s' = Some h → ∃ th, threads s' !! h = Some th ∧ holds_lock th = true.
Proof.
  intros HI HA Hstep. pose proof Hstep as Hstep0.
  split_step Hstep; intros h Hh0; try held HI; simpl in *.
  all: destruct (decide (h = t)) as [->|Hne]; [|try congruence].
  all: try (eexists; split; [stepped_thread|done]).
  all: try (destruct (alive_holder s HA _ Hh0) as (thh & Hh & Hl); by simplify_eq).
  all: try (destruct (alive_holder s HA _ Hh0) as (thh & Hh & Hl);
            exists thh; split; [|done];
            by apply (step_threads_other _ _ _ _ _ Hstep0)).
Qed.

(** The goroutine that executes a record keeps it, or hands it to the
    goroutine it starts. *)
Lemma step_executor_kept s t s' t0 th0 c :
  Inv B s → step B t s = Some s' → threads s !! t0 = Some th0 →
  executor th0 = Some c →
  ∃ t1 th1, threads s' !! t1 = Some th1 ∧ executor th1 = Some c.
Proof.
  intros HI Hstep H0 He.
  destruct (decide (t0 = t)) as [->|Hne];
    [|exists t0, th0; split; [by eapply step_threads_other|done]].
  split_step Hstep; try held HI; simplify_eq/=;
    try (eexists t, _; split; [stepped_thread|done]).
  exists (length (threads s)), (InDoCall false c key fn DcCall). split; [|done].
  apply lookup_lt_Some in Hth.
  rewrite list_lookup_insert_ne by lia.
  by rewrite lookup_app_r, Nat.sub_diag by lia.
Qed.

Lemma step_new_record s t s' :
  step B t s = Some s' → (length (heap s) < length (heap s'))%nat →
  ∃ th, threads s' !! t = Some th ∧ executor th = Some (length (heap s)).
Proof.
  intros Hstep Hlen.
  split_step Hstep; unfold unlock in *; repeat case_match; simpl in *;
    rewrite ?length_insert, ?length_app in Hlen; simpl in Hlen; try lia.
  all: eexists; split; [stepped_thread|done].
Qed.

Lemma step_alive_executor s t s' :
  Inv B s → Alive B s → step B t s = Some s' →
  ∀ c cr, heap s' !! c = Some cr →
    ∃ t1 th1, threads s' !! t1 = Some th1 ∧ executor th1 = Some c.
Proof.
  intros HI HA Hstep c cr' Hc.
  destruct (step_thread_some _ _ _ Hstep) as [th Hth].
  destruct (heap s !! c) as [cr|] eqn:Hold.
  - destruct (alive_executor s HA _ _ Hold) as (t0 & th0 & H0 & He).
    by eapply step_executor_kept.
  - destruct (step_heap_new _ _ _ _ _ _ HI Hstep Hth Hc)
      as [(cr & ? & _)|[(cr & ch' & k & fn & ? & _)|(-> & _)]]; try congruence.
    destruct (step_new_record _ _ _ Hstep) as (th' & ? & ?); [|by eauto].
    apply lookup_lt_Some in Hc. lia.
Qed.

(** *** Where a panic comes from *)

Lemma failure_stored_step s t s' e :
  Inv B s → step B t s = Some s' → failure_stored B s e → failure_stored B s' e.
Proof.
  intros HI Hstep (? & c & cr & Hc & ? & ?). split; [done|].
  exists c, cr. split; [|done]. by eapply step_heap_late.
Qed.

Lemma step_gopanic_stays s t s' t2 e :
  step B t s = Some s' → threads s !! t2 = Some (GoPanic e) →
  threads s' !! t2 = Some (GoPanic e).
Proof.
  intros Hstep H2. destruct (decide (t2 = t)) as [->|Hne];
    [|by eapply step_threads_other].
  split_step Hstep; by simplify_eq/=.
Qed.

Lemma step_alive_select s t s' :
  Inv B s → Alive B s → step B t s = Some s' →
  ∀ t2 th2, threads s' !! t2 = Some th2 → parked th2 = true →
    is_Some (crashed s') ∨ ∃ t' e, threads s' !! t' = Some (GoPanic e).
Proof.
  intros HI HA Hstep t2 th2 H2 Hp.
  assert (∀ th, threads s !! t2 = Some th → parked th = true →
    ∃ t' e, threads s' !! t' = Some (GoPanic e)) as Hold.
  { intros th Hth0 Hp0. destruct (alive_select s HA _ _ Hth0 Hp0) as [[e He]|(t' & e & H')].
    - unfold step in Hstep. by rewrite He in Hstep.
    - exists t', e. by eapply step_gopanic_stays. }
  pose proof Hstep as Hstep0.
  split_step Hstep; try held HI; simpl in *; try thread_cases H2; simplify_eq/=;
    try (right; by eapply Hold).
  right. exists (length (threads s)), e.
  apply lookup_lt_Some in Hth. rewrite list_lookup_insert_ne by lia.
  by rewrite lookup_app_r, Nat.sub_diag by lia.
Qed.

Lemma step_alive_gopanic s t s' :
  Inv B s → Alive B s → step B t s = Some s' →
  ∀ t2 e, threads s' !! t2 = Some (GoPanic e) → failure_stored B s' e.
Proof.
  intros HI HA Hstep t2 e H2.
  assert (∀ t0, threads s !! t0 = Some (GoPanic e) → failure_stored B s' e) as Hold.
  { intros t0 H0. eapply failure_stored_step; [done..|]. by eapply (alive_gopanic s HA). }
  pose proof Hstep as Hstep0.
  split_step Hstep; try held HI; simpl in *; try thread_cases' H2; simplify_eq/=;
    try (by eapply Hold).
  own_facts HI. destruct Ht as (cr & ? & ? & ? & -> & ?).
  split; [done|]. exists c, cr. done.
Qed.

Lemma step_alive_crashed s t s' :
  Inv B s → Alive B s → step B t s = Some s' →
  ∀ e, crashed s' = Some e → failure_stored B s' e.
Proof.
  intros HI HA Hstep e He.
  split_step Hstep; try held HI; simpl in *; simplify_eq/=.
  - own_facts HI. destruct Ht as (cr & ? & ? & ? & -> & ?).
    split; [done|]. exists c, cr. done.
  - by eapply (alive_gopanic s HA).
Qed.

Lemma Alive_step s t s' :
  Inv B s → Alive B s → step B t s = Some s' → Alive B s'.
Proof.
  intros HI HA Hstep. split.
  - by eapply step_alive_holder.
  - by eapply step_alive_executor.
  - by eapply step_alive_select.
  - by eapply step_alive_gopanic.
  - by eapply step_alive_crashed.
Qed.

Lemma Alive_init rs : Alive B (init rs).
Proof.
  split; simpl; try done.
  - intros t th Hth%list_lookup_fmap_Some. by destruct Hth as ([] & -> & _).
  - intros t e Hth%list_lookup_fmap_Some. by destruct Hth as ([] & ? & _).
Qed.

Lemma reachable_Alive rs s : reachable B rs s → Alive B s.
Proof.
  induction 1 as [|s t s' Hr IH Hstep]; [apply Alive_init|].
  eapply Alive_step; [|done..]. by eapply reachable_Inv.
Qed.

(** *** The mutex *)

(** X1: the mutex is held by exactly the goroutine that is between a
    [g.mu.Lock()] and the matching [g.mu.Unlock()], so at most one
    goroutine is in a critical section; the mutex is not held while the
    supplier runs, nor while a duplicate waits. *)
Theorem mutex_held_exactly_in_critical_sections rs s :
  reachable B rs s →
  (∀ t, mu s = Some t ↔ ∃ th, threads s !! t = Some th ∧ holds_lock th = true) ∧
  (∀ t1 t2 th1 th2, threads s !! t1 = Some th1 → threads s !! t2 = Some th2 →
     holds_lock th1 = true → holds_lock th2 = true → t1 = t2) ∧
  (∀ t inline c k fn,
     threads s !! t = Some (InDoCall inline c k fn DcCall) → mu s ≠ Some t) ∧
  (∀ t c, threads s !! t = Some (DoDupWait c) → mu s ≠ Some t).
Proof.
  intros Hr. pose proof (reachable_Inv _ _ Hr) as HI.
  pose proof (reachable_Alive _ _ Hr) as HA.
  assert (∀ t th, threads s !! t = Some th → holds_lock th = false → mu s ≠ Some t)
    as Hfree.
  { intros t th Hth Hl Hmu. destruct (alive_holder s HA _ Hmu) as (th' & ? & ?).
    simplify_eq. congruence. }
  split_and!.
  - intros t. split; [by apply (alive_holder s HA)|].
    intros (th & ? & ?). by eapply (inv_lock s HI).
  - intros t1 t2 th1 th2 H1 H2 Hl1 Hl2.
    pose proof (inv_lock s HI _ _ H1 Hl1). pose proof (inv_lock s HI _ _ H2 Hl2).
    congruence.
  - intros t inline c k fn Hth. by eapply Hfree.
  - intros t c Hth. by eapply Hfree.
Qed.

(** *** Panics *)

(** X2: a panic leaves the package only with a failure that [doCall]
    stored and that is a [panicError[B]]: the value a caller of [Do]
    panics with and the value that ends the process are the [err] of a
    finished record.  In particular the runtime faults of the package's
    own synchronisation (a negative [WaitGroup] counter, the unlock of an
    unlocked mutex, a send on a closed channel) never occur. *)
Theorem panics_are_stored_failures rs s :
  reachable B rs s →
  (∀ e, crashed s = Some e → failure_stored B s e ∧ ∀ msg, e ≠ ErrNew msg) ∧
  (∀ t r c e, threads s !! t = Some (DoPanicked r c e) →
     is_panicError B e = true ∧ (∀ msg, e ≠ ErrNew msg) ∧
     ∃ cr, heap s !! c = Some cr ∧ waitGroup cr = 0%nat ∧ err cr = e) ∧
  (∀ t inline c k fn e,
     threads s !! t = Some (InDoCall inline c k fn (DcPanic e)) →
     is_panicError B e = true ∧ e = failure_of fn).
Proof.
  intros Hr. pose proof (reachable_Inv _ _ Hr) as HI.
  pose proof (reachable_Alive _ _ Hr) as HA.
  assert (∀ e, is_panicError B e = true → ∀ msg, e ≠ ErrNew msg) as Hnew
    by (by intros [] ? ?).
  split_and!.
  - intros e He. pose proof (alive_crashed s HA _ He) as Hs.
    split; [done|]. apply Hnew. by destruct Hs.
  - intros t r c e Hth. pose proof (inv_thread s HI _ _ Hth) as Ht. simpl in Ht.
    destruct Ht as (cr & ? & ? & -> & ?). split_and!; [done|by apply Hnew|by exists cr].
  - intros t inline c k fn e Hth.
    pose proof (inv_thread s HI _ _ Hth) as Ht. simpl in Ht.
    destruct Ht as (cr & ? & ? & Hst & -> & ?). split; [done|].
    destruct fn; simpl in *; by destruct Hst.
Qed.

Lemma step_suppliers s t s' (P : outcome → Prop) :
  step B t s = Some s' →
  (∀ t0 th fn, threads s !! t0 = Some th → supplier_of th = Some fn → P fn) →
  ∀ t2 th2 fn, threads s' !! t2 = Some th2 → supplier_of th2 = Some fn → P fn.
Proof.
  intros Hstep Hold t2 th2 fn H2 Hfn.
  destruct (decide (t2 < length (threads s) ∧ t2 ≠ t)%nat) as [[Hlt Hne]|Hnew].
  { destruct (lookup_lt_is_Some_2 _ _ Hlt) as [th0 H0].
    pose proof (step_threads_other _ _ _ _ _ Hstep Hne H0). simplify_eq. eauto. }
  split_step Hstep; unfold unlock in *; repeat case_match; simpl in *;
    try thread_cases' H2; simplify_eq/=;
    try (by eapply (Hold t); [done|]);
    try (exfalso; apply Hnew; split; [by eapply lookup_lt_Some|done]).
  all: try (by eapply Hold).
Qed.

Lemma step_no_panicError s t s' :
  Inv B s → step B t s = Some s' →
  (∀ t0 th fn, threads s !! t0 = Some th → supplier_of th = Some fn → quiet B fn = true) →
  (∀ c cr, heap s !! c = Some cr → is_panicError B (err cr) = false) →
  ∀ c cr, heap s' !! c = Some cr → is_panicError B (err cr) = false.
Proof.
  intros HI Hstep Hq Hold c cr' Hc.
  split_step Hstep; try held HI; simpl in *;
    try (by eapply Hold);
    first
    [ apply list_lookup_insert_Some in Hc as [(-> & <- & ?)|[? Hc]]
    | apply lookup_snoc_Some in Hc as [[? Hc]|[-> <-]] ];
    simpl; try (by eapply Hold); try done.
  all: specialize (Hq _ _ _ Hth eq_refl); unfold quiet in Hq; simpl in Hq;
    rewrite ?decide_False in Hq by done; by apply negb_true_iff in Hq.
Qed.

Lemma reachable_quiet rs s :
  reachable B rs s → (∀ r, r ∈ rs → quiet_request B r = true) →
  (∀ t th fn, threads s !! t = Some th → supplier_of th = Some fn → quiet B fn = true) ∧
  (∀ c cr, heap s !! c = Some cr → is_panicError B (err cr) = false).
Proof.
  intros Hr Hq. induction Hr as [|s t s' Hr [IH1 IH2] Hstep].
  - split; [|done]. simpl. intros t th fn Hth%list_lookup_fmap_Some Hfn.
    destruct Hth as (r & -> & Hr%list_elem_of_lookup_2).
    specialize (Hq _ Hr). by destruct r; simplify_eq/=.
  - split.
    + by eapply step_suppliers.
    + eapply step_no_panicError; [by eapply reachable_Inv|done..].
Qed.

(** X3: when no supplier leaves a failure that the assertion to
    [*panicError[B]] accepts (it returns, calls [runtime.Goexit], panics
    with nil, or the group's value type is not [any]), nothing in the
    package panics: the process does not crash, no record holds such a
    failure, and no goroutine is at or past a [panic]. *)
Theorem quiet_suppliers_never_panic rs s :
  reachable B rs s → (∀ r, r ∈ rs → quiet_request B r = true) →
  crashed s = None ∧
  (∀ c cr, heap s !! c = Some cr → is_panicError B (err cr) = false) ∧
  (∀ t th, threads s !! t = Some th → panicking th = false).
Proof.
  intros Hr Hq. pose proof (reachable_Inv _ _ Hr) as HI.
  pose proof (reachable_Alive _ _ Hr) as HA.
  destruct (reachable_quiet _ _ Hr Hq) as [_ Hno].
  assert (∀ e, ¬ failure_stored B s e) as Hns.
  { intros e (He & c & cr & Hc & _ & <-). specialize (Hno _ _ Hc). congruence. }
  split_and!; [|done|].
  - destruct (crashed s) as [e|] eqn:He; [|done].
    by destruct (Hns e (alive_crashed s HA _ He)).
  - intros t th Hth. destruct (panicking th) eqn:Hp; [exfalso|done].
    pose proof (inv_thread s HI _ _ Hth) as Ht.
    destruct th as [| | | | | | | | | | | | | | | | | ? ? ? ? [] | | | | | | ];
      simplify_eq/=; try (by eapply Hns, (alive_gopanic s HA)).
    all: unpack; simplify_eq;
      match goal with Hc : heap _ !! _ = Some _ |- _ => specialize (Hno _ _ Hc) end;
      congruence.
Qed.

(** *** Records, their executor and the registry *)

Lemma executor_counter s th c cr :
  tinv B s th → executor th = Some c → heap s !! c = Some cr →
  waitGroup cr = (if before_done th then 1 else 0)%nat ∧
  (before_done th = true →
   ∃ k, key_of th = Some k ∧ ∀ k', registry s !! k' = Some c → k' = k).
Proof.
  intros Ht He Hc.
  destruct th as [| | | | | | |[]| []|[] | | | | | | | | ? ? ? ? [] | | | | | | ];
    simplify_eq/=; unpack; simplify_eq; split; try done; intros _; eauto.
Qed.

(** X4: every record has exactly one goroutine that executes it, and the
    counter of its [WaitGroup] is 1 until that goroutine has run
    [c.waitGroup.Done()] and 0 from then on: [Add(1)] is matched by one
    [Done], and the counter is never negative nor above one. *)
Theorem each_record_has_one_executor rs s c cr :
  reachable B rs s → heap s !! c = Some cr →
  ∃ t th, threads s !! t = Some th ∧ executor th = Some c ∧
    (∀ t' th', threads s !! t' = Some th' → executor th' = Some c → t' = t) ∧
    waitGroup cr = (if before_done th then 1 else 0)%nat.
Proof.
  intros Hr Hc. pose proof (reachable_Inv _ _ Hr) as HI.
  pose proof (reachable_Alive _ _ Hr) as HA.
  destruct (alive_executor s HA _ _ Hc) as (t & th & Hth & He).
  exists t, th. split_and!; [done..| |].
  - intros t' th' Hth' He'. by eapply (inv_executor s HI).
  - by eapply executor_counter; [eapply (inv_thread s HI)|..].
Qed.

(** X5: the registry holds no stale entry: the record registered under
    key [k] is being executed for [k] by a goroutine that has not yet run
    [c.waitGroup.Done()], so its result is not yet published and a
    duplicate never attaches to a finished call; no record is registered
    under two keys. *)
Theorem registry_entries_are_in_flight rs s k c :
  reachable B rs s → registry s !! k = Some c →
  (∃ t th, threads s !! t = Some th ∧ executor th = Some c ∧
     key_of th = Some k ∧ before_done th = true) ∧
  (∃ cr, heap s !! c = Some cr ∧ waitGroup cr = 1%nat) ∧
  (∀ k', registry s !! k' = Some c → k' = k).
Proof.
  intros Hr Hk. pose proof (reachable_Inv _ _ Hr) as HI.
  pose proof (reachable_Alive _ _ Hr) as HA.
  destruct (inv_registry s HI _ _ Hk) as (cr & Hc & Hwg).
  destruct (alive_executor s HA _ _ Hc) as (t & th & Hth & He).
  destruct (executor_counter s th c cr (inv_thread s HI _ _ Hth) He Hc) as [Hn Hkey].
  destruct (before_done th) eqn:Hb; [|congruence].
  destruct (Hkey eq_refl) as (k0 & Hk0 & Hall).
  assert (k = k0) as -> by (by apply Hall).
  split_and!; [by exists t, th|by exists cr|done].
Qed.

(** X6: a step of a goroutine whose call is for key [k] leaves the
    registry entry of every other key as it is: [Do], [DoChan], [doCall]
    and [Forget] add, replace and delete under their own key only (the
    lazy [make] of the map changes no entry). *)
Theorem step_leaves_other_keys s t s' th k' :
  step B t s = Some s' → threads s !! t = Some th → key_of th ≠ Some k' →
  registry s' !! k' = registry s !! k'.
Proof.
  intros Hstep Hth0 Hk.
  split_step Hstep; unfold unlock in *; repeat case_match; simplify_eq/=; refold;
    try done.
  1,2: rewrite lookup_insert_ne; [done|congruence].
  all: unfold registry, delete_if_same; destruct (workspaces s) as [m|]; simpl;
    [|done]; repeat case_decide; simpl; try done;
    rewrite lookup_delete_ne; [done|congruence].
Qed.

(** *** The fields of a record *)

Lemma run_Inv sched s s' : Inv B s → run B sched s = Some s' → Inv B s'.
Proof.
  revert s. induction sched as [|t sched IH]; intros s HI Hrun; simplify_eq/=;
    [done|].
  destruct (step B t s) as [s1|] eqn:Hstep; simplify_eq/=.
  eapply IH; [|done]. by eapply Inv_step.
Qed.

(** X7: the fields of a record whose execution has finished (the counter
    of its [WaitGroup] is 0) are never written again: whatever the
    goroutines do next, the record keeps its [val], [err], [dups] and
    [chans], so every caller that reads it reads the same result. *)
Theorem finished_record_never_changes rs s c cr sched s' :
  reachable B rs s → heap s !! c = Some cr → waitGroup cr = 0%nat →
  run B sched s = Some s' → heap s' !! c = Some cr.
Proof.
  intros Hr Hc Hwg. pose proof (reachable_Inv _ _ Hr) as HI. clear Hr.
  revert s HI Hc. induction sched as [|t sched IH]; intros s HI Hc Hrun;
    simplify_eq/=; [done|].
  destruct (step B t s) as [s1|] eqn:Hstep; simplify_eq/=.
  eapply IH; [by eapply Inv_step| |done]. by eapply step_heap_late.
Qed.

Lemma step_result_written s t s' th c cr cr' :
  Inv B s → step B t s = Some s' → threads s !! t = Some th →
  heap s !! c = Some cr → heap s' !! c = Some cr' →
  val cr' ≠ val cr ∨ err cr' ≠ err cr →
  ∃ inline k fn p, th = InDoCall inline c k fn p ∧
    (p = DcCall ∨ ∃ nr rc, p = DcDefer nr rc).
Proof.
  intros HI Hstep Hth0 Hc Hc' Hne.
  split_step Hstep; try held HI; simplify_eq/=; try (by destruct Hne);
    try (rewrite lookup_app_l in Hc' by (by eapply lookup_lt_Some);
         simplify_eq; by destruct Hne);
    apply list_lookup_insert_Some in Hc' as [(-> & <- & ?)|[? Hc']];
    simplify_eq/=; try (by destruct Hne); eauto 10.
Qed.

(** X8: the fields of a record change as the comments of [call] say.
    [val] and [err] are written only by the goroutine that executes the
    record, before it has run [Done] and outside the critical section;
    [dups] and [chans] are written only by the goroutine that holds the
    mutex, and only before [Done]; the counter only goes from 1 to 0, in
    the critical section of the executing goroutine. *)
Theorem record_fields_follow_their_discipline rs s t s' th c cr :
  reachable B rs s → step B t s = Some s' → threads s !! t = Some th →
  heap s !! c = Some cr →
  ∃ cr', heap s' !! c = Some cr' ∧
    (val cr' ≠ val cr ∨ err cr' ≠ err cr →
       executor th = Some c ∧ before_done th = true ∧
       holds_lock th = false ∧ waitGroup cr = 1%nat) ∧
    (dups cr' ≠ dups cr ∨ chans cr' ≠ chans cr →
       mu s = Some t ∧ waitGroup cr = 1%nat) ∧
    (waitGroup cr' ≠ waitGroup cr →
       mu s = Some t ∧ executor th = Some c ∧
       waitGroup cr = 1%nat ∧ waitGroup cr' = 0%nat).
Proof.
  intros Hr Hstep Hth Hc. pose proof (reachable_Inv _ _ Hr) as HI.
  pose proof (inv_thread s HI _ _ Hth) as Ht.
  destruct (step_heap _ _ _ _ _ _ HI Hstep Hth Hc)
    as (cr' & Hc' & Hfrozen & Hwg & Hve & Hpre & Hdc).
  assert (cr' ≠ cr → waitGroup cr = 1%nat) as Hone.
  { intros Hne. destruct (waitGroup cr) as [|[|n]] eqn:E; [by destruct Hne; auto|done|].
    destruct (alive_executor s (reachable_Alive _ _ Hr) _ _ Hc) as (t0 & th0 & H0 & He).
    destruct (executor_counter s th0 c cr (inv_thread s HI _ _ H0) He Hc) as [Hn _].
    destruct (before_done th0); lia. }
  exists cr'. split; [done|]. split_and!.
  - intros Hne.
    destruct (step_result_written _ _ _ _ _ _ _ HI Hstep Hth Hc Hc' Hne)
      as (inline & k & fn & p & -> & Hp).
    assert (waitGroup cr = 1%nat) by (apply Hone; intros ->; by destruct Hne).
    destruct Hp as [->|(nr & rc & ->)]; done.
  - intros Hne. destruct (holds_lock th) eqn:Hl.
    + split; [by eapply (inv_lock s HI)|]. apply Hone. intros ->. by destruct Hne.
    + destruct (Hdc eq_refl) as [? ?]. destruct Hne; congruence.
  - intros Hne. destruct Hwg as [?|(? & ? & ? & _)]; [done|].
    split_and!; [by eapply (inv_lock s HI)|done| |done].
    apply Hone. intros ->. done.
Qed.

(** *** Progress *)

Lemma can_step s t th :
  Inv B s → crashed s = None → threads s !! t = Some th →
  final th = false → parked th = false → waiting s th = false →
  is_Some (step B t s).
Proof.
  intros HI Hcr Hth Hf Hp Hw.
  pose proof (inv_thread s HI _ _ Hth) as Ht.
  unfold step. rewrite Hcr, Hth. simpl.
  destruct th as [| | | | | | | | | | | | | | | | | ? ? ? ? [] | | | | | | ];
    simplify_eq/=; unfold lock, do_lookup, dochan_lookup;
    try (by eauto);
    try (destruct (mu s);
         [by rewrite bool_decide_eq_true_2 in Hw by eauto|by eauto]);
    try (destruct (registry s !! key) as [c|] eqn:Hreg; [|by eauto];
         destruct (inv_registry s HI _ _ Hreg) as (cr & -> & _); by eauto).
  - destruct Ht as [cr Hc]. rewrite Hc in *. simpl.
    destruct (waitGroup cr); [by eauto|]. by rewrite bool_decide_eq_true_2 in Hw.
  - unpack. rewrite H0. simpl. repeat case_match; eauto.
  - unpack. rewrite H0. simpl. eauto.
  - unpack. rewrite H0. simpl. repeat case_match; eauto.
  - unpack. rewrite H1. simpl. repeat case_match; eauto.
  - unpack. rewrite H1. simpl. repeat case_match; eauto.
  - destruct inline; eauto.
  - destruct rest as [|ch rest]; [by eauto|].
    destruct Ht as (_ & cr & Hc & _ & _ & _ & sent & _ & _ & Hrest).
    destruct (Hrest ch) as (q & Hq & Hbuf); [by left|].
    destruct (inv_chan s HI _ _ Hq) as (Hcap & Hcl & _).
    rewrite Hc. simpl. rewrite Hq. simpl. rewrite Hcl, Hbuf, Hcap. simpl.
    eauto.
  - repeat case_match; eauto.
Qed.

(** X9: a goroutine inside the package can always take its next step,
    unless it is at [g.mu.Lock()] while the mutex is held, at
    [c.waitGroup.Wait()] while the counter is not zero, or at
    [select {}]: no other statement of the package blocks, fails on a nil
    pointer or an unknown channel, or sends to a full channel. *)
Theorem only_lock_and_wait_block rs s t th :
  reachable B rs s → crashed s = None → threads s !! t = Some th →
  final th = false → parked th = false → waiting s th = false →
  is_Some (step B t s).
Proof. intros Hr. apply can_step. by eapply reachable_Inv. Qed.

Lemma some_goroutine_steps s :
  Inv B s → Alive B s → crashed s = None →
  (∃ t th, threads s !! t = Some th ∧ final th = false) →
  ∃ t s', step B t s = Some s'.
Proof.
  intros HI HA Hcr (t & th & Hth & Hf).
  assert (∀ t0 th0, threads s !! t0 = Some th0 → final th0 = false →
    parked th0 = false → waiting s th0 = false → ∃ t1 s', step B t1 s = Some s')
    as Hgo.
  { intros t0 th0 H0 ? ? ?. exists t0. by eapply can_step. }
  assert (∀ t0 th0, threads s !! t0 = Some th0 → parked th0 = true →
    ∃ t1 s', step B t1 s = Some s') as Hparked.
  { intros t0 th0 H0 Hp0.
    destruct (alive_select s HA _ _ H0 Hp0) as [[e He]|(t' & e & H')]; [congruence|].
    by eapply Hgo. }
  destruct (mu s) as [h|] eqn:Hmu.
  - destruct (alive_holder s HA _ Hmu) as (thh & Hh & Hl).
    destruct (parked thh) eqn:Hp; [by eapply Hparked|].
    eapply Hgo; [done| |done|].
    + by destruct thh as [| | | | | | | | | | | | | | | | | ? ? ? ? [] | | | | | | ].
    + by destruct thh as [| | | | | | | | | | | | | | | | | ? ? ? ? [] | | | | | | ].
  - destruct (parked th) eqn:Hp; [by eapply Hparked|].
    destruct (waiting s th) eqn:Hw; [|by eapply Hgo].
    destruct th as [| | | | | | | | | | | | | | | | | ? ? ? ? [] | | | | | | ];
      simplify_eq/=; try (by rewrite Hmu, bool_decide_eq_false_2 in Hw by (by intros [? ?])).
    destruct (heap s !! c) as [cr|] eqn:Hc; [|done].
    apply bool_decide_eq_true in Hw.
    destruct (alive_executor s HA _ _ Hc) as (t0 & th0 & H0 & He).
    destruct (executor_counter s th0 c cr (inv_thread s HI _ _ H0) He Hc) as [Hn _].
    destruct (before_done th0) eqn:Hb; [|done].
    eapply Hgo; [done|..];
      destruct th0 as [| | | | | | | | | | | | | | | | | ? ? ? ? [] | | | | | | ];
      simplify_eq/=; try done.
    rewrite Hmu. apply bool_decide_eq_false_2. by intros [? ?].
Qed.

(** X10: the package does not deadlock: as long as the process has not
    crashed and some goroutine is still inside the package, some goroutine
    can take a step.  Whoever holds the mutex can go on (a goroutine at
    [select {}] holds it for good, and then the goroutine of [go panic(e)]
    is there to end the process); with the mutex free, a duplicate that
    waits has an executor that can go on. *)
Theorem no_deadlock rs s :
  reachable B rs s → crashed s = None →
  (∃ t th, threads s !! t = Some th ∧ final th = false) →
  ∃ t s', step B t s = Some s'.
Proof.
  intros Hr. apply some_goroutine_steps;
    [by eapply reachable_Inv|by eapply reachable_Alive].
Qed.

(** *** The stack of a [panicError], in full *)

(** X11: [newPanicError] keeps the value and the stack snapshot from the
    byte after the first newline on; a snapshot with no newline (an empty
    one in particular) is kept whole.  The result is always a
    [panicError[any]]. *)
Theorem newPanicError_keeps_all_but_the_first_line r stk :
  ∃ stack, newPanicError r stk = ErrPanic TAny r stack ∧
    ((x0a ∉ stk) ∧ stack = stk ∨
     ∃ line, (x0a ∉ line) ∧ stk = line ++ x0a :: stack).
Proof.
  destruct (decide (x0a ∈ stk)) as [Hin|Hout].
  - apply list_elem_of_split_l in Hin as (line & rest & -> & Hline).
    exists rest. split; [by apply newPanicError_strips|]. right. by exists line.
  - exists stk. split; [by apply newPanicError_one_line|]. by left.
Qed.

(** *** Every run is finite *)

Lemma total_weight_app (l1 l2 : list thread) :
  total_weight (l1 ++ l2) = (total_weight l1 + total_weight l2)%nat.
Proof. induction l1 as [|th l1 IH]; simpl; [done|]. rewrite IH. lia. Qed.

Lemma total_weight_insert (l : list thread) t th th' :
  l !! t = Some th →
  (total_weight (<[t := th']> l) + weight th = total_weight l + weight th')%nat.
Proof.
  revert t. induction l as [|x l IH]; intros [|t] Hth; simplify_eq/=; [lia|].
  specialize (IH _ Hth). lia.
Qed.

Lemma total_owed_app (h1 h2 : list call) :
  total_owed (h1 ++ h2) = (total_owed h1 + total_owed h2)%nat.
Proof. induction h1 as [|cr h1 IH]; simpl; [done|]. rewrite IH. lia. Qed.

Lemma total_owed_insert (h : list call) c cr cr' :
  h !! c = Some cr →
  (total_owed (<[c := cr']> h) + owed cr = total_owed h + owed cr')%nat.
Proof.
  revert c. induction h as [|x h IH]; intros [|c] Hc; simplify_eq/=; [lia|].
  specialize (IH _ Hc). lia.
Qed.

Ltac weigh Hth :=
  repeat match goal with
  | |- context [total_weight (<[?t := ?x]> (threads ?s ++ ?sp))] =>
      let Hw := fresh "Hw" in
      pose proof (total_weight_insert (threads s ++ sp) t _ x
                    (lookup_app_l_Some _ _ _ _ Hth)) as Hw;
      rewrite total_weight_app in Hw; simpl in Hw;
      generalize dependent (total_weight (<[t := x]> (threads s ++ sp))); intros
  | |- context [total_weight (<[?t := ?x]> (threads ?s))] =>
      let Hw := fresh "Hw" in
      pose proof (total_weight_insert (threads s) t _ x Hth) as Hw; simpl in Hw;
      generalize dependent (total_weight (<[t := x]> (threads s))); intros
  | Hc : heap ?s !! ?c = Some _ |- context [total_owed (<[?c := ?x]> (heap ?s))] =>
      let Ho := fresh "Ho" in
      pose proof (total_owed_insert (heap s) c _ x Hc) as Ho;
      unfold owed in Ho; simpl in Ho;
      generalize dependent (total_owed (<[c := x]> (heap s))); intros
  end.

Lemma potential_step s t s' :
  Inv B s → step B t s = Some s' → (potential s' < potential s)%nat.
Proof.
  intros HI Hstep. unfold potential.
  split_step Hstep; try held HI; simpl;
    rewrite ?Hcrashed; simpl;
    rewrite ?total_owed_app; simpl; weigh Hth; try lia.
  all: try (destruct (waitGroup cr) eqn:?; rewrite ?length_app in *; simpl in *; lia).
  all: own_facts HI; destruct Ht as (_ & cr0 & ? & Hone & _); simplify_eq;
    rewrite Hone in *; simpl in *; lia.
Qed.

Lemma potential_run sched s s' :
  Inv B s → run B sched s = Some s' →
  (length sched + potential s' ≤ potential s)%nat.
Proof.
  revert s. induction sched as [|t sched IH]; intros s HI Hrun; simplify_eq/=;
    [done|].
  destruct (step B t s) as [s1|] eqn:Hstep; simplify_eq/=.
  pose proof (potential_step _ _ _ HI Hstep).
  specialize (IH s1 (Inv_step _ _ _ HI Hstep) Hrun). lia.
Qed.

Lemma potential_init rs : (potential (init rs) ≤ 13 * length rs + 1)%nat.
Proof.
  unfold potential. simpl.
  assert (total_weight (start <$> rs) ≤ 13 * length rs)%nat; [|lia].
  induction rs as [|r rs IH]; [simpl; lia|].
  rewrite fmap_cons. cbn [total_weight length].
  assert (weight (start r) ≤ 13)%nat by (destruct r; simpl; lia). lia.
Qed.

(** X12: every run is finite, whatever the schedule: the goroutines of
    [n] calls take at most [13 * n + 1] steps in all, the one step of each
    supplier included; each step takes one off what is left of
    [potential]. *)
Theorem every_run_is_bounded rs sched s :
  run B sched (init rs) = Some s →
  (length sched ≤ 13 * length rs + 1)%nat ∧
  (length sched + potential s ≤ potential (init rs))%nat.
Proof.
  intros Hrun. pose proof (potential_run _ _ _ (Inv_init _) Hrun).
  pose proof (potential_init rs). lia.
Qed.


(** *** Every call can finish *)

Lemma not_all_final (l : list thread) :
  ¬ Forall (λ th, final th = true) l →
  ∃ t th, l !! t = Some th ∧ final th = false.
Proof.
  intros Hex%not_Forall_Exists; [|intros th; apply _].
  apply Exists_exists in Hex as (th & Hin & Hf).
  apply list_elem_of_lookup_1 in Hin as [t Ht].
  exists t, th. split; [done|]. simpl in Hf. by apply not_true_is_false.
Qed.

Lemma can_finish n s :
  Inv B s → Alive B s → (potential s ≤ n)%nat →
  ∃ sched s', run B sched s = Some s' ∧
    (is_Some (crashed s') ∨ Forall (λ th, final th = true) (threads s')).
Proof.
  revert s. induction n as [|n IH]; intros s HI HA Hn.
  - exists [], s. split; [done|]. left. unfold potential in Hn.
    destruct (crashed s); [by eauto|lia].
  - destruct (crashed s) as [e|] eqn:Hcr.
    { exists [], s. split; [done|]. left. rewrite Hcr. by eauto. }
    destruct (decide (Forall (λ th, final th = true) (threads s))) as [Hall|Hnot].
    { exists [], s. split; [done|]. by right. }
    destruct (some_goroutine_steps s HI HA Hcr (not_all_final _ Hnot)) as (t & s1 & Hstep).
    pose proof (potential_step _ _ _ HI Hstep).
    destruct (IH s1) as (sched & s' & Hrun & Hend);
      [by eapply Inv_step|by eapply Alive_step|lia|].
    exists (t :: sched), s'. split; [|done]. simpl. by rewrite Hstep.
Qed.

(** X19: every call can finish.  From every state the goroutines can
    reach, some schedule of at most [potential s] steps leads to a state
    in which every goroutine has left the package, or in which a panic of
    a supplier has ended the process: no caller is left waiting for a
    result that cannot come. *)
Theorem every_call_can_finish rs s :
  reachable B rs s →
  ∃ sched s', run B sched s = Some s' ∧
    (length sched ≤ potential s)%nat ∧
    ((∃ e, crashed s' = Some e ∧ failure_stored B s' e) ∨
     ∀ t th, threads s' !! t = Some th → final th = true).
Proof.
  intros Hr. pose proof (reachable_Inv _ _ Hr) as HI.
  pose proof (reachable_Alive _ _ Hr) as HA.
  destruct (can_finish (potential s) s HI HA) as (sched & s' & Hrun & Hend); [done|].
  exists sched, s'. split; [done|]. split.
  - pose proof (potential_run _ _ _ HI Hrun). lia.
  - destruct Hend as [[e He]|Hall].
    + left. exists e. split; [done|].
      apply (alive_crashed s'); [|done].
      eapply reachable_Alive, run_reachable; done.
    + right. intros t th Hth. by eapply Forall_lookup_1 in Hall.
Qed.

End Proofs.

(** ** Calls that run alone *)

(** A call whose goroutine is the only one to take steps, from any state
    in which the mutex is free: what it returns and what it leaves in the
    store. *)
Section Alone.

Context {K : Type} `{Countable K}.

Local Abbreviation thread := (@thread K).
Local Abbreviation state := (@state K _ _).

Implicit Types (s : state) (k : K) (B : gotype).

Lemma lookup_last {A} (l : list A) x : (l ++ [x]) !! length l = Some x.
Proof. by apply list_lookup_middle. Qed.

Lemma insert_last {A} (l : list A) x y : <[length l := y]> (l ++ [x]) = l ++ [y].
Proof. rewrite insert_app_r_alt by done. by rewrite Nat.sub_diag. Qed.

Lemma run_app B (l1 l2 : list nat) s :
  run B (l1 ++ l2) s = run B l1 s ≫= run B l2.
Proof.
  revert s. induction l1 as [|t l1 IH]; intros s; simpl; [done|].
  destruct (step B t s); simpl; [apply IH|done].
Qed.

Ltac norm_state :=
  cbv beta iota zeta delta
    [set_thread set_mu set_heap set_workspaces set_channels set_crashed spawn
     unlock lock delete_if_same do_lookup dochan_lookup registry
     mu workspaces heap channels threads crashed
     set_val_err set_err incr_dups append_chan wg_done envelope
     waitGroup val err dups chans cap buf closed];
  rewrite ?list_insert_insert_eq, ?insert_last, ?lookup_last.

(** Symbolic execution of one step of goroutine [t]. *)
Ltac seq_step :=
  lazymatch goal with
  | |- context [step _ ?t ?s] =>
      erewrite (step_unfold _ s t);
      [ | reflexivity
        | simpl; first [eassumption | apply list_lookup_insert_eq; assumption ] ]
  end; simpl; norm_state; simpl.

Lemma run_do_alone B s t k v e :
  crashed s = None → mu s = None →
  threads s !! t = Some (DoLock k (Returns v e)) →
  registry s !! k = None →
  is_panicError B e = false → e ≠ ErrGoexit →
  ∃ s', run B (replicate 10 t) s = Some s' ∧
    threads s' = <[t := DoReturned Orig (length (heap s)) v e false]> (threads s) ∧
    heap s' = heap s ++ [Call 0 v e 0 []] ∧
    workspaces s' = Some (registry s) ∧ mu s' = None ∧
    channels s' = channels s ∧ crashed s' = None.
Proof.
  destruct s as [m w h cs ths cr]. simpl. intros -> -> Hth Hk He1 He2.
  assert (t < length ths)%nat as Hlt by (by eapply lookup_lt_Some).
  eexists. split.
  - cbn [replicate run].
    seq_step. seq_step. rewrite Hk. simpl. norm_state.
    seq_step. seq_step. seq_step. seq_step.
    seq_step. rewrite He1. rewrite decide_False by done. simpl. norm_state.
    rewrite lookup_insert_eq, decide_True by done. simpl. norm_state.
    seq_step. seq_step. seq_step. reflexivity.
  - simpl. rewrite delete_insert_id by done. by rewrite ?list_insert_insert_eq.
Qed.

(** X13: a call of [Do] that runs alone for a key that is not registered,
    with a supplier that returns [(v, e)], returns [(v, e, false)] after
    ten steps; it leaves one more record, finished and with no duplicate,
    the registry with the entries it had (in a map that is now made), the
    mutex free and the other goroutines and the channels as they were. *)
Theorem do_alone_returns B s t k v e :
  crashed s = None → mu s = None →
  threads s !! t = Some (DoLock k (Returns v e)) →
  registry s !! k = None →
  is_panicError B e = false → e ≠ ErrGoexit →
  ∃ s', run B (replicate 10 t) s = Some s' ∧
    threads s' = <[t := DoReturned Orig (length (heap s)) v e false]> (threads s) ∧
    heap s' = heap s ++ [Call 0 v e 0 []] ∧
    workspaces s' = Some (registry s) ∧ mu s' = None ∧
    channels s' = channels s ∧ crashed s' = None.
Proof. apply run_do_alone. Qed.

(** X14: a call of [Do] that runs alone with a supplier that calls
    [runtime.Goexit] does not return: after eight steps its goroutine has
    ended, the record holds [errGoexit] with the counter at 0, the
    registry has the entries it had and the mutex is free. *)
Theorem do_alone_goexits B s t k :
  crashed s = None → mu s = None →
  threads s !! t = Some (DoLock k Goexits) →
  registry s !! k = None →
  ∃ s', run B (replicate 8 t) s = Some s' ∧
    threads s' = <[t := DoGoexited Orig (length (heap s))]> (threads s) ∧
    heap s' = heap s ++ [Call 0 (zero B) ErrGoexit 0 []] ∧
    workspaces s' = Some (registry s) ∧ mu s' = None ∧
    channels s' = channels s ∧ crashed s' = None.
Proof.
  destruct s as [m w h cs ths cr]. simpl. intros -> -> Hth Hk.
  assert (t < length ths)%nat as Hlt by (by eapply lookup_lt_Some).
  eexists. split.
  - cbn [replicate run].
    seq_step. seq_step. rewrite Hk. simpl. norm_state.
    seq_step. seq_step. seq_step. seq_step.
    seq_step. rewrite lookup_insert_eq, decide_True by done. simpl. norm_state.
    seq_step. reflexivity.
  - simpl. rewrite delete_insert_id by done. by rewrite ?list_insert_insert_eq.
Qed.

(** X15: a call of [Do] that runs alone with a supplier that panics with
    [r].  For a non-nil [r] the record gets [newPanicError(r)], a
    [panicError[any]]: in a group whose value type is [any] the call
    panics with it after eight steps, the deferred [Unlock] having run;
    in a group of any other value type the assertion fails and the call
    returns the zero value, that failure and [false] after ten steps.  For
    a nil [r] ([panic(nil)] where [recover] returns nil) nothing is stored
    and the call returns the zero value and a nil error. *)
Theorem do_alone_panics B s t k r stk :
  crashed s = None → mu s = None →
  threads s !! t = Some (DoLock k (Panics r stk)) →
  registry s !! k = None →
  let c := length (heap s) in
  let e := newPanicError r stk in
  (r ≠ VNil → B = TAny →
   ∃ s', run B (replicate 8 t) s = Some s' ∧
     threads s' = <[t := DoPanicked Orig c e]> (threads s) ∧
     heap s' = heap s ++ [Call 0 (zero B) e 0 []] ∧
     workspaces s' = Some (registry s) ∧ mu s' = None ∧ crashed s' = None) ∧
  (r ≠ VNil → B ≠ TAny →
   ∃ s', run B (replicate 10 t) s = Some s' ∧
     threads s' = <[t := DoReturned Orig c (zero B) e false]> (threads s) ∧
     heap s' = heap s ++ [Call 0 (zero B) e 0 []] ∧
     workspaces s' = Some (registry s) ∧ mu s' = None ∧ crashed s' = None) ∧
  (r = VNil →
   ∃ s', run B (replicate 10 t) s = Some s' ∧
     threads s' = <[t := DoReturned Orig c (zero B) ErrNil false]> (threads s) ∧
     heap s' = heap s ++ [Call 0 (zero B) ErrNil 0 []] ∧
     workspaces s' = Some (registry s) ∧ mu s' = None ∧ crashed s' = None).
Proof.
  destruct s as [m w h cs ths cr]. simpl. intros -> -> Hth Hk.
  assert (t < length ths)%nat as Hlt by (by eapply lookup_lt_Some).
  split_and!.
  - intros Hr ->. eexists. split.
    + cbn [replicate run].
      seq_step. seq_step. rewrite Hk. simpl. norm_state.
      seq_step. seq_step. rewrite decide_False by done. simpl. norm_state.
      seq_step. seq_step. seq_step.
      rewrite lookup_insert_eq, decide_True by done. simpl. norm_state.
      seq_step. reflexivity.
    + simpl. rewrite delete_insert_id by done. by rewrite ?list_insert_insert_eq.
  - intros Hr HB. eexists. split.
    + cbn [replicate run].
      seq_step. seq_step. rewrite Hk. simpl. norm_state.
      seq_step. seq_step. rewrite decide_False by done. simpl. norm_state.
      seq_step. seq_step. seq_step.
      rewrite bool_decide_eq_false_2 by done.
      rewrite lookup_insert_eq, decide_True by done. simpl. norm_state.
      seq_step. seq_step. seq_step. reflexivity.
    + simpl. rewrite delete_insert_id by done. by rewrite ?list_insert_insert_eq.
  - intros ->. eexists. split.
    + cbn [replicate run].
      seq_step. seq_step. rewrite Hk. simpl. norm_state.
      seq_step. seq_step. seq_step. seq_step. seq_step.
      rewrite lookup_insert_eq, decide_True by done. simpl. norm_state.
      seq_step. seq_step. seq_step. reflexivity.
    + simpl. rewrite delete_insert_id by done. by rewrite ?list_insert_insert_eq.
Qed.

Lemma lookup_spawned {A} (l : list A) t x y :
  (<[t := x]> l ++ [y]) !! length l = Some y.
Proof. rewrite <-(length_insert l t x). apply lookup_last. Qed.

Lemma insert_spawned {A} (l : list A) t x y z :
  <[length l := z]> (<[t := x]> l ++ [y]) = <[t := x]> l ++ [z].
Proof. rewrite <-(length_insert l t x) at 1. apply insert_last. Qed.

Lemma spawn_returned {A} (l : list A) t x x' y :
  (t < length l)%nat → <[t := x']> (<[t := x]> l ++ [y]) = <[t := x']> l ++ [y].
Proof.
  intros Hlt. rewrite insert_app_l by (by rewrite length_insert).
  by rewrite list_insert_insert_eq.
Qed.

(** One step of the goroutine a call of [DoChan] has started. *)
Ltac spawned_step :=
  lazymatch goal with
  | |- context [step _ ?t ?s] =>
      erewrite (step_unfold _ s t);
      [ | reflexivity | simpl; apply lookup_spawned ]
  end; simpl; norm_state; simpl; rewrite ?insert_spawned.

(** X16: a call of [DoChan] that runs alone for a key that is not
    registered returns a new channel after five steps and starts one
    goroutine; once the supplier has returned [(v, e)] and that goroutine
    has taken its seven steps, the channel holds the one envelope
    [(v, e, false)], the record is finished, the registry has the entries
    it had and the mutex is free. *)
Theorem dochan_alone_delivers B s t k v e :
  crashed s = None → mu s = None →
  threads s !! t = Some (ChMake k (Returns v e)) →
  registry s !! k = None →
  is_panicError B e = false → e ≠ ErrGoexit →
  let ch := length (channels s) in
  let c := length (heap s) in
  let g := length (threads s) in
  (∃ s1, run B (replicate 5 t) s = Some s1 ∧
     threads s1 = <[t := ChReturned ch]> (threads s) ++ [InDoCall false c k (Returns v e) DcCall] ∧
     channels s1 = channels s ++ [Chan 1 [] false] ∧ mu s1 = None) ∧
  (∃ s', run B (replicate 5 t ++ replicate 7 g) s = Some s' ∧
     threads s' = <[t := ChReturned ch]> (threads s) ++ [GoEnded c] ∧
     channels s' = channels s ++ [Chan 1 [Result v e false] false] ∧
     heap s' = heap s ++ [Call 0 v e 0 [ch]] ∧
     workspaces s' = Some (registry s) ∧ mu s' = None ∧ crashed s' = None).
Proof.
  destruct s as [m w h cs ths cr]. simpl. intros -> -> Hth Hk He1 He2.
  assert (t < length ths)%nat as Hlt by (by eapply lookup_lt_Some).
  split.
  - eexists. split.
    + cbn [replicate run].
      seq_step. seq_step. seq_step. rewrite Hk. simpl. norm_state.
      seq_step. seq_step. reflexivity.
    + simpl. by rewrite spawn_returned by done.
  - eexists. split.
    + cbn [replicate run app].
      seq_step. seq_step. seq_step. rewrite Hk. simpl. norm_state.
      seq_step. seq_step. rewrite spawn_returned by done.
      spawned_step. spawned_step. spawned_step.
      spawned_step. rewrite He1. rewrite decide_False by done. simpl. norm_state.
      rewrite lookup_insert_eq, decide_True by done. simpl. norm_state.
      rewrite ?insert_spawned.
      spawned_step. spawned_step. spawned_step. reflexivity.
    + simpl. by rewrite delete_insert_id by done.
Qed.

(** X17: a call of [Forget] that runs alone deletes the entry of its key
    and nothing else, in three steps: the other entries, the records, the
    channels and the other goroutines are as they were and the mutex is
    free again.  On a group whose map was never made the [delete] on the
    nil map does nothing and the map stays nil; for a key that is not
    registered the registry is unchanged. *)
Theorem forget_alone B s t k :
  crashed s = None → mu s = None →
  threads s !! t = Some (FgLock k) →
  ∃ s', run B (replicate 3 t) s = Some s' ∧
    threads s' = <[t := FgReturned k]> (threads s) ∧
    registry s' = delete k (registry s) ∧
    (workspaces s = None → workspaces s' = None) ∧
    (registry s !! k = None → registry s' = registry s) ∧
    heap s' = heap s ∧ channels s' = channels s ∧
    mu s' = None ∧ crashed s' = None.
Proof.
  destruct s as [m w h cs ths cr]. simpl. intros -> -> Hth.
  assert (t < length ths)%nat as Hlt by (by eapply lookup_lt_Some).
  eexists. split.
  - cbn [replicate run]. seq_step. seq_step. seq_step. reflexivity.
  - simpl. rewrite ?list_insert_insert_eq.
    assert (default ∅ (delete k <$> w) = delete k (default ∅ w)) as ->.
    { destruct w; simpl; [done|]. by rewrite delete_empty. }
    split_and!; try done.
    + by intros ->.
    + intros Hk. by apply delete_id.
Qed.

(** X18: results are not kept from one call to the next.  Two calls of
    [Do] for one key that run one after the other each make a record of
    their own and run their own supplier: the second returns what its
    supplier returns, not what the first call got, and both return
    [shared = false]. *)
Theorem do_twice_runs_both_suppliers B s t1 t2 k v1 e1 v2 e2 :
  crashed s = None → mu s = None → t1 ≠ t2 →
  threads s !! t1 = Some (DoLock k (Returns v1 e1)) →
  threads s !! t2 = Some (DoLock k (Returns v2 e2)) →
  registry s !! k = None →
  is_panicError B e1 = false → e1 ≠ ErrGoexit →
  is_panicError B e2 = false → e2 ≠ ErrGoexit →
  ∃ s', run B (replicate 10 t1 ++ replicate 10 t2) s = Some s' ∧
    threads s' !! t1 = Some (DoReturned Orig (length (heap s)) v1 e1 false) ∧
    threads s' !! t2 = Some (DoReturned Orig (S (length (heap s))) v2 e2 false) ∧
    heap s' = heap s ++ [Call 0 v1 e1 0 []; Call 0 v2 e2 0 []] ∧
    registry s' = registry s ∧ mu s' = None ∧ crashed s' = None.
Proof.
  intros Hcr Hmu Hne H1 H2 Hk ? ? ? ?.
  destruct (run_do_alone B s t1 k v1 e1) as (s1 & Hrun1 & Hth1 & Hh1 & Hw1 & Hmu1 & Hch1 & Hcr1);
    [done..|].
  destruct (run_do_alone B s1 t2 k v2 e2) as (s2 & Hrun2 & Hth2 & Hh2 & Hw2 & Hmu2 & Hch2 & Hcr2);
    [done..| | |done|done|].
  { rewrite Hth1. by rewrite list_lookup_insert_ne. }
  { unfold registry. by rewrite Hw1. }
  exists s2. rewrite run_app, Hrun1. simpl. split; [done|].
  assert (registry s1 = registry s) as Hreg by (unfold registry at 1; by rewrite Hw1).
  rewrite Hth2, Hth1, Hh2, Hh1, length_app. simpl.
  split_and!; try done.
  - rewrite list_lookup_insert_ne by done. apply list_lookup_insert_eq.
    by eapply lookup_lt_Some.
  - replace (length (heap s) + 1)%nat with (S (length (heap s))) by lia.
    apply list_lookup_insert_eq. rewrite length_insert. by eapply lookup_lt_Some.
  - by rewrite <-app_assoc.
  - unfold registry at 1. rewrite Hw2. simpl. done.
Qed.

End Alone.

(** ** Runs of the client programs *)

Module Runs.

Import Programs.

Lemma after_reachable B rs sched :
  is_Some (run B sched (init rs)) → reachable B rs (after B rs sched).
Proof.
  intros [s Hs]. unfold after. rewrite Hs. simpl.
  eapply run_reachable; [apply reachable_init|done].
Qed.

Ltac runs := apply after_reachable; vm_compute; eauto.

(** *** C1 *)

(** C1 as stated fails: with a [Forget] in between, a join made while the
    execution for its key is in flight does not attach to it; it makes
    record 1, the supplier runs a second time, and the two callers of
    the one key get different values. *)
Lemma C1_counterexample :
  threads (after TInt do_forget_do forgotten_in_flight) =
    [InDoCall true 0 7%nat ret42 DcCall; FgReturned 7%nat; DoLookup 7%nat ret43] ∧
  threads (after TInt do_forget_do (forgotten_in_flight ++ steps 1 2)) =
    [InDoCall true 0 7%nat ret42 DcCall; FgReturned 7%nat; DoNewUnlock 1 7%nat ret43] ∧
  threads (after TInt do_forget_do both_executed) =
    [DoReturned Orig 0 (VInt 42) ErrNil false; FgReturned 7%nat;
     DoReturned Orig 1 (VInt 43) ErrNil false].
Proof. by vm_compute. Qed.

(** The second caller is about to look key 7 up while the first one is
    inside [doCall] and the registry still has its record. *)
Lemma C1_witness :
  let s := after TInt (two_do ret42) second_at_lookup in
  reachable TInt (two_do ret42) s ∧ crashed s = None ∧
  ∃ s' cr, step TInt 1%nat s = Some s' ∧
    heap s !! 0%nat = Some cr ∧ waitGroup cr = 1%nat ∧
    threads s' !! 1%nat = Some (DoDupUnlock 0) ∧
    length (heap s') = length (heap s) ∧
    length (threads s') = length (threads s) ∧
    registry s' = registry s.
Proof.
  intros s. assert (reachable TInt (two_do ret42) s) as Hr by runs.
  split; [exact Hr|]. split; [reflexivity|].
  apply (proj1 (C1_joins_attach_to_the_registered_execution TInt _ _ Hr eq_refl)
           1%nat 7%nat 0%nat ret42); reflexivity.
Defined.

(** *** C2 and C3: a panicking supplier in a group of strings *)

(** C2 fails in a [Group[_, string]]: the stored failure is a
    [panicError[any]], the assertion to [panicError[string]] fails, and
    the duplicate (goroutine 1) returns the zero value, the failure and
    [true] where it should panic. *)
Lemma C2_duplicate_returns_the_panic_as_an_error :
  let s := after TString (two_do boom) both_done in
  threads s = [DoReturned Orig 0 (VStr "") stored_boom true;
               DoReturned Dup 0 (VStr "") stored_boom true] ∧
  crashed s = None ∧
  is_panicError TString stored_boom = false ∧
  is_panicError TAny stored_boom = true.
Proof. by vm_compute. Qed.

(** C3 fails in a [Group[_, string]]: [doCall] takes the branch of a
    normal return.  With no channel ([Do] alone) nothing is re-raised and
    [Do] returns; with a channel ([DoChan]) no goroutine is started to
    crash the process and the envelope is delivered. *)
Lemma C3_panic_takes_the_normal_return_branch :
  (let s := after TString (one_do boom) (steps 10 0) in
   threads s = [DoReturned Orig 0 (VStr "") stored_boom false] ∧
   crashed s = None) ∧
  (let s := after TString (one_dochan boom) dochan_done in
   threads s = [ChReturned 0; GoEnded 0] ∧
   channels s = [Chan 1 [Result (VStr "") stored_boom false] false] ∧
   crashed s = None).
Proof. by vm_compute. Qed.

(** In a [Group[_, any]] the same programs do what C2 and C3 say: both
    callers of [Do] panic with the stored failure; with a channel,
    [doCall] parks in [select {}], the goroutine of [go panic(e)] ends the
    process, and the channel stays empty. *)
Lemma panic_in_a_group_of_any :
  threads (after TAny (two_do boom) both_panicked) =
    [DoPanicked Orig 0 stored_boom; DoPanicked Dup 0 stored_boom] ∧
  (let s := after TAny (one_dochan boom) dochan_crashed in
   threads s = [ChReturned 0; InDoCall false 0 7%nat boom DcSelect; GoPanic stored_boom] ∧
   channels s = [Chan 1 [] false] ∧
   crashed s = Some stored_boom).
Proof. by vm_compute. Qed.

(** *** C4 *)

(** The supplier of the first caller has called [runtime.Goexit]; its
    [doCall] is at the deferred [Unlock]; a duplicate waits. *)
Lemma C4_witness :
  let s := after TInt (two_do Goexits) goexit_at_unlock in
  reachable TInt (two_do Goexits) s ∧ crashed s = None ∧
  ∃ cr, heap s !! 0%nat = Some cr ∧
    (∀ ch q, ch ∈ chans cr → channels s !! ch = Some q → buf q = []) ∧
    waitGroup cr = 0%nat ∧ err cr = ErrGoexit ∧
    ∃ s', step TInt 0%nat s = Some s' ∧ crashed s' = None ∧
      channels s' = channels s ∧ length (threads s') = length (threads s) ∧
      threads s' !! 0%nat = Some (DoGoexited Orig 0).
Proof.
  intros s. assert (reachable TInt (two_do Goexits) s) as Hr by runs.
  split; [exact Hr|]. split; [reflexivity|].
  apply (proj1 (C4_goexit_is_stored_and_repeated_by_duplicates TInt _ _ Hr eq_refl)
           0%nat true 0%nat 7%nat (DcUnlock false false)); reflexivity.
Defined.

(** The whole run: the first caller ends by [runtime.Goexit], and so does
    the duplicate once it wakes. *)
Lemma goexit_reaches_the_duplicate :
  let s := after TInt (two_do Goexits) (goexit_at_unlock ++ steps 1 0 ++ steps 2 1) in
  threads s = [DoGoexited Orig 0; DoGoexited Dup 0] ∧
  heap s = [Call 0 (VInt 0) ErrGoexit 1 []] ∧ crashed s = None.
Proof. by vm_compute. Qed.

(** *** C5 *)

(** C5 as stated fails: the supplier calls [runtime.Goexit]; [DoChan] has
    returned channel 0, the goroutine of [doCall] has ended, no goroutine
    can take a step, and the channel is empty: it never receives an
    envelope. *)
Lemma C5_counterexample :
  let s := after TInt (one_dochan Goexits) dochan_goexited in
  threads s = [ChReturned 0; GoEnded 0] ∧
  channels s = [Chan 1 [] false] ∧
  crashed s = None ∧
  ∀ t, step TInt t s = None.
Proof.
  intros s. split_and!; try by vm_compute.
  intros [|[|t]]; reflexivity.
Qed.

(** [DoChan] has returned and the goroutine of [doCall] has ended after
    a normal return of the supplier. *)
Lemma C5_witness :
  let s := after TInt (one_dochan ret42) dochan_done in
  reachable TInt (one_dochan ret42) s ∧ crashed s = None ∧
  ∃ c cr q, heap s !! c = Some cr ∧ 0%nat ∈ chans cr ∧
    channels s !! 0%nat = Some q ∧
    (¬ ordinary TInt (err cr) → buf q = []) ∧
    (ordinary TInt (err cr) →
     ∀ t' th', threads s !! t' = Some th' → executor th' = Some c →
       past_fanout th' = true → buf q = [envelope cr]).
Proof.
  intros s. assert (reachable TInt (one_dochan ret42) s) as Hr by runs.
  split; [exact Hr|]. split; [reflexivity|].
  apply (proj2 (proj2 (C5_dochan_returns_a_channel_with_at_most_one_envelope
                         TInt _ _ Hr eq_refl)) 0%nat 0%nat); reflexivity.
Defined.

(** The whole run: the channel holds the one envelope. *)
Lemma dochan_delivers_one_envelope :
  let s := after TInt (one_dochan ret42) dochan_done in
  threads s = [ChReturned 0; GoEnded 0] ∧
  channels s = [Chan 1 [Result (VInt 42) ErrNil false] false].
Proof. by vm_compute. Qed.

(** *** C6 and C7 *)

Lemma C6_witness :
  let s := after TInt (two_do ret42) both_done in
  reachable TInt (two_do ret42) s ∧ heap s !! 0%nat = Some shared_record ∧
  joiners s 0 shared_record < 2 ^ 63 ∧
  (∀ t r v e sh, threads s !! t = Some (DoReturned r 0 v e sh) →
     (sh = true ↔ 2 ≤ joiners s 0 shared_record) ∧
     sh = match r with Orig => 0 <? dups shared_record | Dup => true end) ∧
  (∀ ch q r, ch ∈ chans shared_record → channels s !! ch = Some q → r ∈ buf q →
     (Shared r = true ↔ 2 ≤ joiners s 0 shared_record) ∧
     Shared r = (0 <? dups shared_record)).
Proof.
  intros s. assert (reachable TInt (two_do ret42) s) as Hr by runs.
  split; [exact Hr|]. split; [reflexivity|]. split; [reflexivity|].
  apply (C6_shared_iff_another_caller_joined TInt _ _ _ _ Hr); reflexivity.
Defined.

(** C7 as stated fails: two callers joined the one execution, both have
    returned with [shared = true], no goroutine can take a step, and the
    number of results with [shared = false] is zero, not one. *)
Lemma C7_counterexample :
  let s := after TInt (two_do ret42) both_done in
  threads s = [DoReturned Orig 0 (VInt 42) ErrNil true;
               DoReturned Dup 0 (VInt 42) ErrNil true] ∧
  heap s = [shared_record] ∧
  joiners s 0 shared_record = 2 ∧
  unshared_results s 0 shared_record = 0%nat ∧
  ∀ t, step TInt t s = None.
Proof.
  intros s. split_and!; try by vm_compute.
  intros [|[|t]]; reflexivity.
Qed.

Lemma C7_witness :
  let s := after TInt (two_do ret42) both_done in
  reachable TInt (two_do ret42) s ∧ heap s !! 0%nat = Some shared_record ∧
  joiners s 0 shared_record < 2 ^ 63 ∧
  (2 ≤ joiners s 0 shared_record → unshared_results s 0 shared_record = 0%nat) ∧
  (joiners s 0 shared_record = 1 → (unshared_results s 0 shared_record ≤ 1)%nat).
Proof.
  intros s. assert (reachable TInt (two_do ret42) s) as Hr by runs.
  split; [exact Hr|]. split; [reflexivity|]. split; [reflexivity|].
  apply (C7_no_unshared_result_among_several_joiners TInt _ _ _ _ Hr); reflexivity.
Defined.

(** A sole caller gets [shared = false]. *)
Lemma sole_caller_is_unshared :
  let s := after TInt (one_do ret42) (steps 10 0) in
  threads s = [DoReturned Orig 0 (VInt 42) ErrNil false] ∧
  unshared_results s 0 (Call 0 (VInt 42) ErrNil 0 []) = 1%nat.
Proof. by vm_compute. Qed.

(** *** C8 *)

(** C8 as stated fails: the supplier panics with nil, [recover()]
    returns nil, and [doCall] stores no [panicError]: after the supplier
    the failure of record 0 is nil, it does not wrap the value and the
    stack, its [Error()] is not the value followed by the stack text, and
    [Do] returns the zero value and a nil error, in a group of [any] as
    well. *)
Lemma C8_counterexample :
  let s := after TAny (one_do nil_boom) (steps 4 0) in
  threads (after TAny (one_do nil_boom) (steps 3 0)) =
    [InDoCall true 0 7%nat (Panics VNil (first_line ++ x0a :: other_lines)) DcCall] ∧
  threads s = [InDoCall true 0 7%nat nil_boom (DcDefer false true)] ∧
  heap s = [Call 1 VNil ErrNil 0 []] ∧
  (∀ cr, heap s !! 0%nat = Some cr →
     err cr ≠ ErrPanic TAny VNil other_lines ∧
     Error (err cr) ≠ fmt_v VNil +:+ nl +:+ nl +:+ fmt_s other_lines) ∧
  threads (after TAny (one_do nil_boom) (steps 10 0)) =
    [DoReturned Orig 0 VNil ErrNil false] ∧
  crashed (after TAny (one_do nil_boom) (steps 10 0)) = None.
Proof.
  intros s. split_and!; try by vm_compute.
  intros cr Hcr. vm_compute in Hcr. injection Hcr as <-. by vm_compute.
Qed.

(** The caller is about to run a supplier that panics with ["boom"]. *)
Lemma C8_witness :
  let s := after TAny (one_do boom) (steps 3 0) in
  reachable TAny (one_do boom) s ∧ crashed s = None ∧
  threads s !! 0%nat =
    Some (InDoCall true 0 7%nat (Panics (VStr "boom") (first_line ++ x0a :: other_lines)) DcCall) ∧
  (x0a ∉ first_line) ∧
  ∃ s' cr cr', heap s !! 0%nat = Some cr ∧ step TAny 0%nat s = Some s' ∧
    heap s' !! 0%nat = Some cr' ∧
    threads s' !! 0%nat =
      Some (InDoCall true 0 7%nat (Panics (VStr "boom") (first_line ++ x0a :: other_lines))
              (DcDefer false true)) ∧
    val cr' = zero TAny ∧
    (VStr "boom" ≠ VNil →
       err cr' = ErrPanic TAny (VStr "boom") other_lines ∧
       Error (err cr') = fmt_v (VStr "boom") +:+ nl +:+ nl +:+ fmt_s other_lines) ∧
    (VStr "boom" = VNil → cr' = cr ∧ err cr' = ErrNil).
Proof.
  intros s. assert (reachable TAny (one_do boom) s) as Hr by runs.
  assert (x0a ∉ first_line) as Hline
    by (apply (bool_decide_unpack (x0a ∉ first_line)); vm_compute; exact I).
  split; [exact Hr|]. split; [reflexivity|]. split; [reflexivity|].
  split; [exact Hline|].
  apply (C8_panic_error_wraps_value_and_stack TAny _ s 0%nat true 0%nat 7%nat
           (VStr "boom") first_line other_lines Hr);
    [reflexivity|reflexivity|exact Hline].
Defined.

(** What [Error()] of the stored failure is, as text. *)
Lemma stored_boom_Error :
  Error stored_boom =
  "boom" +:+ nl +:+ nl +:+ "runtime/debug.Stack()" +:+ nl.
Proof. reflexivity. Qed.

(** *** C9 *)


(** *** C10 *)

(** The goroutine of [doCall] is about to send to channel 0. *)
Lemma C10_witness :
  let s := after TInt (one_dochan ret42) dochan_at_send in
  reachable TInt (one_dochan ret42) s ∧ crashed s = None ∧
  ∃ s' cr q', step TInt 1%nat s = Some s' ∧ heap s !! 0%nat = Some cr ∧
    threads s' !! 1%nat =
      Some (InDoCall false 0 7%nat ret42 (DcSend true false [])) ∧
    channels s' !! 0%nat = Some q' ∧ buf q' = [envelope cr].
Proof.
  intros s. assert (reachable TInt (one_dochan ret42) s) as Hr by runs.
  split; [exact Hr|]. split; [reflexivity|].
  apply (proj2 (C10_fanout_never_blocks TInt _ _ Hr)
           1%nat false 0%nat 7%nat ret42 true false 0%nat []); reflexivity.
Defined.

(** *** Further runs *)

Ltac computed := vm_compute; reflexivity.

(** The second caller holds the mutex; the first is about to run its
    supplier. *)
Lemma mutex_witness :
  let s := after TInt (two_do ret42) second_at_lookup in
  reachable TInt (two_do ret42) s ∧
  threads s = [InDoCall true 0 7%nat ret42 DcCall; DoLookup 7%nat ret42] ∧
  (∀ t, mu s = Some t ↔ ∃ th, threads s !! t = Some th ∧ holds_lock th = true) ∧
  (∀ t1 t2 th1 th2, threads s !! t1 = Some th1 → threads s !! t2 = Some th2 →
     holds_lock th1 = true → holds_lock th2 = true → t1 = t2) ∧
  (∀ t inline c k fn,
     threads s !! t = Some (InDoCall inline c k fn DcCall) → mu s ≠ Some t) ∧
  (∀ t c, threads s !! t = Some (DoDupWait c) → mu s ≠ Some t).
Proof.
  intros s. assert (reachable TInt (two_do ret42) s) as Hr by runs.
  split; [exact Hr|]. split; [computed|].
  exact (mutex_held_exactly_in_critical_sections TInt _ s Hr).
Defined.

(** In a group of [any], the goroutine of [go panic(e)] has ended the
    process. *)
Lemma panic_witness :
  let s := after TAny (one_dochan boom) dochan_crashed in
  reachable TAny (one_dochan boom) s ∧ crashed s = Some stored_boom ∧
  failure_stored TAny s stored_boom ∧ ∀ msg, stored_boom ≠ ErrNew msg.
Proof.
  intros s. assert (reachable TAny (one_dochan boom) s) as Hr by runs.
  assert (crashed s = Some stored_boom) as Hc by computed.
  split; [exact Hr|]. split; [exact Hc|].
  exact (proj1 (panics_are_stored_failures TAny _ s Hr) stored_boom Hc).
Defined.

Lemma quiet_witness :
  let s := after TInt (two_do ret42) both_done in
  reachable TInt (two_do ret42) s ∧
  (∀ r, r ∈ two_do ret42 → quiet_request TInt r = true) ∧
  crashed s = None ∧
  (∀ c cr, heap s !! c = Some cr → is_panicError TInt (err cr) = false) ∧
  (∀ t th, threads s !! t = Some th → panicking th = false).
Proof.
  intros s. assert (reachable TInt (two_do ret42) s) as Hr by runs.
  assert (∀ r, r ∈ two_do ret42 → quiet_request TInt r = true) as Hq.
  { apply Forall_forall. repeat constructor. }
  split; [exact Hr|]. split; [exact Hq|].
  exact (quiet_suppliers_never_panic TInt _ s Hr Hq).
Defined.

(** Both callers have returned: goroutine 0 executed record 0. *)
Lemma executor_witness :
  let s := after TInt (two_do ret42) both_done in
  reachable TInt (two_do ret42) s ∧ heap s !! 0%nat = Some shared_record ∧
  ∃ t th, threads s !! t = Some th ∧ executor th = Some 0%nat ∧
    (∀ t' th', threads s !! t' = Some th' → executor th' = Some 0%nat → t' = t) ∧
    waitGroup shared_record = (if before_done th then 1 else 0)%nat.
Proof.
  intros s. assert (reachable TInt (two_do ret42) s) as Hr by runs.
  assert (heap s !! 0%nat = Some shared_record) as Hc by computed.
  split; [exact Hr|]. split; [exact Hc|].
  exact (each_record_has_one_executor TInt _ s 0%nat shared_record Hr Hc).
Defined.

Lemma registry_witness :
  let s := after TInt (two_do ret42) second_at_lookup in
  reachable TInt (two_do ret42) s ∧ registry s !! 7%nat = Some 0%nat ∧
  (∃ t th, threads s !! t = Some th ∧ executor th = Some 0%nat ∧
     key_of th = Some 7%nat ∧ before_done th = true) ∧
  (∃ cr, heap s !! 0%nat = Some cr ∧ waitGroup cr = 1%nat) ∧
  (∀ k', registry s !! k' = Some 0%nat → k' = 7%nat).
Proof.
  intros s. assert (reachable TInt (two_do ret42) s) as Hr by runs.
  assert (registry s !! 7%nat = Some 0%nat) as Hk by computed.
  split; [exact Hr|]. split; [exact Hk|].
  exact (registry_entries_are_in_flight TInt _ s 7%nat 0%nat Hr Hk).
Defined.

(** A call for key 7 registers its record; key 8 is not touched. *)
Lemma other_keys_witness :
  let s := after TInt (two_do ret42) (steps 1 0) in
  let s' := after TInt (two_do ret42) (steps 2 0) in
  step TInt 0%nat s = Some s' ∧ threads s !! 0%nat = Some (DoLookup 7%nat ret42) ∧
  key_of (DoLookup 7%nat ret42) ≠ Some 8%nat ∧
  registry s' !! 7%nat = Some 0%nat ∧ registry s' !! 8%nat = registry s !! 8%nat.
Proof.
  intros s s'.
  assert (step TInt 0%nat s = Some s') as Hstep by computed.
  assert (threads s !! 0%nat = Some (DoLookup 7%nat ret42)) as Hth by computed.
  assert (key_of (DoLookup 7%nat ret42) ≠ Some 8%nat) as Hk by discriminate.
  split; [exact Hstep|]. split; [exact Hth|]. split; [exact Hk|].
  split; [computed|].
  exact (step_leaves_other_keys TInt s 0%nat s' _ 8%nat Hstep Hth Hk).
Defined.

(** The first caller has returned; the duplicate wakes and returns. *)
Lemma finished_witness :
  let s := after TInt (two_do ret42) first_done in
  let s' := after TInt (two_do ret42) both_done in
  reachable TInt (two_do ret42) s ∧ heap s !! 0%nat = Some shared_record ∧
  waitGroup shared_record = 0%nat ∧ run TInt (steps 2 1) s = Some s' ∧
  heap s' !! 0%nat = Some shared_record.
Proof.
  intros s s'. assert (reachable TInt (two_do ret42) s) as Hr by runs.
  assert (heap s !! 0%nat = Some shared_record) as Hc by computed.
  assert (run TInt (steps 2 1) s = Some s') as Hrun by computed.
  split; [exact Hr|]. split; [exact Hc|]. split; [reflexivity|].
  split; [exact Hrun|].
  exact (finished_record_never_changes TInt _ s 0%nat shared_record _ s'
           Hr Hc eq_refl Hrun).
Defined.

(** The second caller attaches: [dups] changes, under the mutex. *)
Lemma discipline_witness :
  let s := after TInt (two_do ret42) second_at_lookup in
  let s' := after TInt (two_do ret42) (second_at_lookup ++ steps 1 1) in
  let cr := Call 1 (VInt 0) ErrNil 0 [] in
  reachable TInt (two_do ret42) s ∧ step TInt 1%nat s = Some s' ∧
  threads s !! 1%nat = Some (DoLookup 7%nat ret42) ∧ heap s !! 0%nat = Some cr ∧
  ∃ cr', heap s' !! 0%nat = Some cr' ∧
    (val cr' ≠ val cr ∨ err cr' ≠ err cr →
       executor (DoLookup 7%nat ret42) = Some 0%nat ∧
       before_done (DoLookup 7%nat ret42) = true ∧
       holds_lock (DoLookup 7%nat ret42) = false ∧ waitGroup cr = 1%nat) ∧
    (dups cr' ≠ dups cr ∨ chans cr' ≠ chans cr →
       mu s = Some 1%nat ∧ waitGroup cr = 1%nat) ∧
    (waitGroup cr' ≠ waitGroup cr →
       mu s = Some 1%nat ∧ executor (DoLookup 7%nat ret42) = Some 0%nat ∧
       waitGroup cr = 1%nat ∧ waitGroup cr' = 0%nat).
Proof.
  intros s s' cr. assert (reachable TInt (two_do ret42) s) as Hr by runs.
  assert (step TInt 1%nat s = Some s') as Hstep by computed.
  assert (threads s !! 1%nat = Some (DoLookup 7%nat ret42)) as Hth by computed.
  assert (heap s !! 0%nat = Some cr) as Hc by computed.
  split; [exact Hr|]. split; [exact Hstep|]. split; [exact Hth|].
  split; [exact Hc|].
  exact (record_fields_follow_their_discipline TInt _ s 1%nat s' _ 0%nat cr
           Hr Hstep Hth Hc).
Defined.

(** The first caller is about to run its supplier while the second
    holds the mutex. *)
Lemma enabled_witness :
  let s := after TInt (two_do ret42) second_at_lookup in
  reachable TInt (two_do ret42) s ∧ crashed s = None ∧
  threads s !! 0%nat = Some (InDoCall true 0 7%nat ret42 DcCall) ∧
  is_Some (step TInt 0%nat s).
Proof.
  intros s. assert (reachable TInt (two_do ret42) s) as Hr by runs.
  assert (crashed s = None) as Hc by computed.
  assert (threads s !! 0%nat = Some (InDoCall true 0 7%nat ret42 DcCall)) as Hth
    by computed.
  split; [exact Hr|]. split; [exact Hc|]. split; [exact Hth|].
  exact (only_lock_and_wait_block TInt _ s 0%nat _ Hr Hc Hth
           eq_refl eq_refl eq_refl).
Defined.

(** A duplicate waits for the first caller. *)
Lemma no_deadlock_witness :
  let s := after TInt (two_do ret42) second_waits in
  reachable TInt (two_do ret42) s ∧ crashed s = None ∧
  threads s !! 1%nat = Some (DoDupWait 0) ∧ step TInt 1%nat s = None ∧
  ∃ t s', step TInt t s = Some s'.
Proof.
  intros s. assert (reachable TInt (two_do ret42) s) as Hr by runs.
  assert (crashed s = None) as Hc by computed.
  assert (threads s !! 1%nat = Some (DoDupWait 0)) as Hth by computed.
  split; [exact Hr|]. split; [exact Hc|]. split; [exact Hth|].
  split; [computed|].
  apply (no_deadlock TInt _ s Hr Hc).
  exists 1%nat, (DoDupWait 0). split; [exact Hth|reflexivity].
Defined.

Lemma bounded_witness :
  let s := after TInt (two_do ret42) both_done in
  run TInt both_done (init (two_do ret42)) = Some s ∧
  (length both_done ≤ 13 * length (two_do ret42) + 1)%nat ∧
  (length both_done + potential s ≤ potential (init (two_do ret42)))%nat.
Proof.
  intros s.
  assert (run TInt both_done (init (two_do ret42)) = Some s) as Hrun by computed.
  split; [exact Hrun|].
  exact (every_run_is_bounded TInt _ _ s Hrun).
Defined.

(** A duplicate waits for the first caller: both can finish. *)
Lemma can_finish_witness :
  let s := after TInt (two_do ret42) second_waits in
  reachable TInt (two_do ret42) s ∧
  ∃ sched s', run TInt sched s = Some s' ∧
    (length sched ≤ potential s)%nat ∧
    ((∃ e, crashed s' = Some e ∧ failure_stored TInt s' e) ∨
     ∀ t th, threads s' !! t = Some th → final th = true).
Proof.
  intros s. assert (reachable TInt (two_do ret42) s) as Hr by runs.
  split; [exact Hr|].
  exact (every_call_can_finish TInt _ s Hr).
Defined.

(** *** Calls that run alone *)

Lemma do_alone_witness :
  let s := init (one_do ret42) in
  crashed s = None ∧ mu s = None ∧
  threads s !! 0%nat = Some (DoLock 7%nat ret42) ∧ registry s !! 7%nat = None ∧
  ∃ s', run TInt (replicate 10 0%nat) s = Some s' ∧
    threads s' = <[0%nat := DoReturned Orig (length (heap s)) (VInt 42) ErrNil false]> (threads s) ∧
    heap s' = heap s ++ [Call 0 (VInt 42) ErrNil 0 []] ∧
    workspaces s' = Some (registry s) ∧ mu s' = None ∧
    channels s' = channels s ∧ crashed s' = None.
Proof.
  intros s. do 4 (split; [computed|]).
  apply (do_alone_returns TInt s 0%nat 7%nat (VInt 42) ErrNil);
    try computed. discriminate.
Defined.

Lemma do_goexit_witness :
  let s := init (one_do Goexits) in
  crashed s = None ∧ mu s = None ∧
  threads s !! 0%nat = Some (DoLock 7%nat Goexits) ∧ registry s !! 7%nat = None ∧
  ∃ s', run TInt (replicate 8 0%nat) s = Some s' ∧
    threads s' = <[0%nat := DoGoexited Orig (length (heap s))]> (threads s) ∧
    heap s' = heap s ++ [Call 0 (zero TInt) ErrGoexit 0 []] ∧
    workspaces s' = Some (registry s) ∧ mu s' = None ∧
    channels s' = channels s ∧ crashed s' = None.
Proof.
  intros s. do 4 (split; [computed|]).
  apply (do_alone_goexits TInt s 0%nat 7%nat); computed.
Defined.

(** In a group of [any] the call panics with the stored failure. *)
Lemma do_panic_witness :
  let s := init (one_do boom) in
  crashed s = None ∧ mu s = None ∧
  threads s !! 0%nat = Some (DoLock 7%nat boom) ∧ registry s !! 7%nat = None ∧
  VStr "boom" ≠ VNil ∧
  ∃ s', run TAny (replicate 8 0%nat) s = Some s' ∧
    threads s' = <[0%nat := DoPanicked Orig (length (heap s)) (newPanicError (VStr "boom") stack_text)]> (threads s) ∧
    heap s' = heap s ++ [Call 0 (zero TAny) (newPanicError (VStr "boom") stack_text) 0 []] ∧
    workspaces s' = Some (registry s) ∧ mu s' = None ∧ crashed s' = None.
Proof.
  intros s.
  assert (crashed s = None) as Hc by computed.
  assert (mu s = None) as Hmu by computed.
  assert (threads s !! 0%nat = Some (DoLock 7%nat boom)) as Hth by computed.
  assert (registry s !! 7%nat = None) as Hk by computed.
  assert (VStr "boom" ≠ VNil) as Hv by discriminate.
  do 5 (split; [assumption|]).
  exact (proj1 (do_alone_panics TAny s 0%nat 7%nat (VStr "boom") stack_text
                  Hc Hmu Hth Hk) Hv eq_refl).
Defined.

Lemma dochan_alone_witness :
  let s := init (one_dochan ret42) in
  crashed s = None ∧ mu s = None ∧
  threads s !! 0%nat = Some (ChMake 7%nat ret42) ∧ registry s !! 7%nat = None ∧
  ∃ s', run TInt (replicate 5 0%nat ++ replicate 7 (length (threads s))) s = Some s' ∧
    threads s' = <[0%nat := ChReturned (length (channels s))]> (threads s)
                 ++ [GoEnded (length (heap s))] ∧
    channels s' = channels s ++ [Chan 1 [Result (VInt 42) ErrNil false] false] ∧
    heap s' = heap s ++ [Call 0 (VInt 42) ErrNil 0 [length (channels s)]] ∧
    workspaces s' = Some (registry s) ∧ mu s' = None ∧ crashed s' = None.
Proof.
  intros s. do 4 (split; [computed|]).
  apply (dochan_alone_delivers TInt s 0%nat 7%nat (VInt 42) ErrNil);
    try computed. discriminate.
Defined.

(** [Forget] on a group that was never used. *)
Lemma forget_alone_witness :
  let s := init one_forget in
  crashed s = None ∧ mu s = None ∧ threads s !! 0%nat = Some (FgLock 7%nat) ∧
  ∃ s', run TInt (replicate 3 0%nat) s = Some s' ∧
    threads s' = <[0%nat := FgReturned 7%nat]> (threads s) ∧
    registry s' = delete 7%nat (registry s) ∧
    (workspaces s = None → workspaces s' = None) ∧
    (registry s !! 7%nat = None → registry s' = registry s) ∧
    heap s' = heap s ∧ channels s' = channels s ∧
    mu s' = None ∧ crashed s' = None.
Proof.
  intros s. do 3 (split; [computed|]).
  apply (forget_alone TInt s 0%nat 7%nat); computed.
Defined.

Lemma do_twice_witness :
  let s := init do_do in
  crashed s = None ∧ mu s = None ∧ 0%nat ≠ 1%nat ∧
  threads s !! 0%nat = Some (DoLock 7%nat ret42) ∧
  threads s !! 1%nat = Some (DoLock 7%nat ret43) ∧ registry s !! 7%nat = None ∧
  ∃ s', run TInt (replicate 10 0%nat ++ replicate 10 1%nat) s = Some s' ∧
    threads s' !! 0%nat = Some (DoReturned Orig (length (heap s)) (VInt 42) ErrNil false) ∧
    threads s' !! 1%nat = Some (DoReturned Orig (S (length (heap s))) (VInt 43) ErrNil false) ∧
    heap s' = heap s ++ [Call 0 (VInt 42) ErrNil 0 []; Call 0 (VInt 43) ErrNil 0 []] ∧
    registry s' = registry s ∧ mu s' = None ∧ crashed s' = None.
Proof.
  intros s. do 2 (split; [computed|]). split; [discriminate|].
  do 3 (split; [computed|]).
  apply (do_twice_runs_both_suppliers TInt s 0%nat 1%nat 7%nat
           (VInt 42) ErrNil (VInt 43) ErrNil); try computed; discriminate.
Defined.

End Runs.
